(** * scrape_auction.py: filter engine, log buffer, totals display,
      scheduler loop, event bus and pagination walker.

    Shallow embedding of [src/scrape_auction.py].  Python [str] values are
    [string]s, one [ascii] per character (the emoji of the log lines are
    written as their UTF-8 bytes); module globals are fields of an explicit
    state; the scheduler thread of [main] is a labelled step relation
    interleaved with the steps of the request handlers; [float] is IEEE
    binary64 through [SpecFloat]; what the network, the file system and the
    clock do is an input. *)

From Stdlib Require Import ZArith Ascii String List Bool Lia Permutation.
From Stdlib Require Import Decimal DecimalString.
From Stdlib Require Import Floats.SpecFloat.
From stdpp Require Import base option list strings gmap fin_maps.

Local Open Scope string_scope.
Local Open Scope list_scope.

(** ** Strings *)

Module Str.

(** [needle in hay] of Python: [needle] occurs as a contiguous run. *)
Fixpoint starts_with (needle hay : string) : bool :=
  match needle, hay with
  | EmptyString, _ => true
  | String _ _, EmptyString => false
  | String a n', String b h' => if Ascii.eqb a b then starts_with n' h' else false
  end.

Fixpoint contains (needle hay : string) : bool :=
  starts_with needle hay ||
  match hay with
  | EmptyString => false
  | String _ h' => contains needle h'
  end.

(** [bool(s)] for a Python string: the empty string is falsy. *)
Definition truthy (s : string) : bool :=
  match s with EmptyString => false | String _ _ => true end.

(** ASCII instance of [str.lower], used to run the examples. *)
Definition lower_ascii (c : ascii) : ascii :=
  let n := nat_of_ascii c in
  if (65 <=? n)%nat && (n <=? 90)%nat then ascii_of_nat (n + 32) else c.

Fixpoint lower (s : string) : string :=
  match s with
  | EmptyString => EmptyString
  | String c s' => String (lower_ascii c) (lower s')
  end.

End Str.

(** ** Records produced by the crawler *)

Record Item := mkItem {
  title : option string;
  picture_url : option string;
  price : option string;
  remaining : option string;
  value : option string;
  bids : option string
}.

(** [item.get('title') or ''] *)
Definition title_or_empty (it : Item) : string :=
  match title it with
  | Some t => if Str.truthy t then t else ""
  | None => ""
  end.

(** ** FilterEngine: [apply_filters_to_items] *)

Section FilterEngine.

(** [str.lower]; the engine uses nothing of it but its being a function. *)
Variable lower : string -> string.

(** [[(f, f.lower()) for f in filters if f]] *)
Definition active_filters (filters : list string) : list (string * string) :=
  map (fun f => (f, lower f)) (List.filter Str.truthy filters).

(** The inner [for original, term in active_filters] loop with its [break]. *)
Fixpoint first_match (active : list (string * string)) (title_lower : string)
  : option string :=
  match active with
  | [] => None
  | (original, term) :: rest =>
      if Str.contains term title_lower then Some original
      else first_match rest title_lower
  end.

(** The outer [for item in items] loop over the two accumulators. *)
Fixpoint filter_loop (active : list (string * string)) (items : list Item)
    (filtered_items : list Item) (filtered_out : list (Item * string))
  : list Item * list (Item * string) :=
  match items with
  | [] => (filtered_items, filtered_out)
  | item :: rest =>
      let title_lower := lower (title_or_empty item) in
      match first_match active title_lower with
      | Some matched =>
          if Str.truthy matched
          then filter_loop active rest filtered_items (filtered_out ++ [(item, matched)])
          else filter_loop active rest (filtered_items ++ [item]) filtered_out
      | None => filter_loop active rest (filtered_items ++ [item]) filtered_out
      end
  end.

Definition apply_filters_to_items (filters : list string) (items : list Item)
  : list Item * list (Item * string) :=
  let active := active_filters filters in
  match active with
  | [] => (items, [])
  | _ :: _ => filter_loop active items [] []
  end.

End FilterEngine.

(** ** Python [float]: IEEE binary64 *)

Module PyFloat.

Definition float := spec_float.
Definition prec : Z := 53.
Definition emax : Z := 1024.

Definition zero : float := S754_zero false.
Definition add (x y : float) : float := SFadd prec emax x y.

(** *** [float(str)] *)

(** Characters that [float] strips from both ends. *)
Definition is_space (c : ascii) : bool :=
  let n := nat_of_ascii c in
  ((9 <=? n) && (n <=? 13) || (n =? 32) || (n =? 133) || (n =? 160))%nat.

Definition digit_of (c : ascii) : option Z :=
  let n := nat_of_ascii c in
  if ((48 <=? n) && (n <=? 57))%nat then Some (Z.of_nat (n - 48)) else None.

Definition is_digit (c : ascii) : bool :=
  match digit_of c with Some _ => true | None => false end.

Fixpoint lstrip (s : list ascii) : list ascii :=
  match s with
  | c :: s' => if is_space c then lstrip s' else s
  | [] => []
  end.

Definition strip (s : list ascii) : list ascii :=
  rev (lstrip (rev (lstrip s))).

(** Underscores are allowed only between two digits; they are removed
    before the number is read.  [prev] is the character before [s]. *)
Fixpoint drop_underscores (prev : ascii) (s : list ascii) : option (list ascii) :=
  match s with
  | [] => if Ascii.eqb prev "_" then None else Some []
  | c :: s' =>
      if Ascii.eqb c "_" then
        if is_digit prev then drop_underscores c s' else None
      else if Ascii.eqb prev "_" && negb (is_digit c) then None
      else option_map (cons c) (drop_underscores c s')
  end.

(** The longest run of digits at the head of [s]: its value as an integer
    continuing from [acc], how many digits, and the rest. *)
Fixpoint read_digits (acc : Z) (n : Z) (s : list ascii) : Z * Z * list ascii :=
  match s with
  | c :: s' =>
      match digit_of c with
      | Some d => read_digits (10 * acc + d) (n + 1) s'
      | None => (acc, n, s)
      end
  | [] => (acc, n, [])
  end.

Definition read_sign (s : list ascii) : bool * list ascii :=
  match s with
  | c :: s' =>
      if Ascii.eqb c "-" then (true, s')
      else if Ascii.eqb c "+" then (false, s')
      else (false, s)
  | [] => (false, [])
  end.

(** The nearest binary64 to [m * 10 ^ e10], ties to even. *)
Definition of_decimal (neg : bool) (m : Z) (e10 : Z) : float :=
  match m with
  | Zpos mp =>
      if (0 <=? e10)%Z then
        match (m * 10 ^ e10)%Z with
        | Zpos p => binary_round prec emax neg p 0
        | _ => S754_nan
        end
      else
        let d := (10 ^ (- e10))%Z in
        let sh := Z.max 0 (Zdigits2 d + 55 - Zdigits2 m) in
        let '(q, r) := Z.div_eucl (m * 2 ^ sh) d in
        let loc := if (r =? 0)%Z then loc_Exact else loc_Inexact (Z.compare (2 * r) d) in
        binary_round_aux prec emax neg q (- sh) loc
  | _ => S754_zero neg
  end.

Definition lower_list (s : list ascii) : list ascii := map Str.lower_ascii s.

Definition parse_special (neg : bool) (s : list ascii) : option float :=
  let l := string_of_list_ascii (lower_list s) in
  if String.eqb l "inf" || String.eqb l "infinity" then Some (S754_infinity neg)
  else if String.eqb l "nan" then Some S754_nan
  else None.

(** [digits [. digits] [e [sign] digits]] with at least one mantissa digit,
    and nothing left over. *)
Definition parse_number (neg : bool) (s : list ascii) : option float :=
  let '(ip, ni, s1) := read_digits 0 0 s in
  let '(m, nf, s2) :=
    match s1 with
    | c :: s1' => if Ascii.eqb c "." then read_digits ip 0 s1' else (ip, 0%Z, s1)
    | [] => (ip, 0%Z, s1)
    end in
  if (ni + nf =? 0)%Z then None else
  match s2 with
  | [] => Some (of_decimal neg m (- nf))
  | c :: s3 =>
      if Ascii.eqb c "e" || Ascii.eqb c "E" then
        let '(eneg, s4) := read_sign s3 in
        let '(ev, ne, s5) := read_digits 0 0 s4 in
        match s5 with
        | [] => if (ne =? 0)%Z then None
                else Some (of_decimal neg m ((if eneg then - ev else ev) - nf))
        | _ :: _ => None
        end
      else None
  end.

(** [float(s)]: [None] stands for the [ValueError] it raises. *)
Definition of_string (s : string) : option float :=
  match drop_underscores " " (strip (list_ascii_of_string s)) with
  | None => None
  | Some body =>
      let '(neg, rest) := read_sign body in
      match parse_special neg rest with
      | Some x => Some x
      | None => parse_number neg rest
      end
  end.

(** *** [format(x, '.2f')] and its [+] and [,] options *)

(** [|x| * 100] rounded to an integer, ties to even, for finite [m * 2^e]. *)
Definition cents (m : positive) (e : Z) : Z :=
  if (0 <=? e)%Z then Zpos m * 2 ^ e * 100
  else
    let den := (2 ^ (- e))%Z in
    let '(q, r) := Z.div_eucl (Zpos m * 100) den in
    match Z.compare (2 * r) den with
    | Lt => q
    | Eq => if Z.even q then q else q + 1
    | Gt => q + 1
    end.

Definition decimal_digits (n : Z) : list ascii :=
  list_ascii_of_string (NilZero.string_of_uint (N.to_uint (Z.to_N n))).

(** A comma before every group of three digits counted from the right. *)
Fixpoint group3 (rev_digits : list ascii) : list ascii :=
  match rev_digits with
  | a :: b :: c :: ((_ :: _) as rest) => a :: b :: c :: ","%char :: group3 rest
  | _ => rev_digits
  end.

Definition two_digits (n : Z) : list ascii :=
  decimal_digits (n / 10) ++ decimal_digits (n mod 10).

Definition sign_prefix (plus neg : bool) : string :=
  if neg then "-" else if plus then "+" else "".

(** [format(x, '[+][,].2f')] *)
Definition format_2f (plus comma : bool) (x : float) : string :=
  match x with
  | S754_nan => sign_prefix plus false +:+ "nan"
  | S754_infinity s => sign_prefix plus s +:+ "inf"
  | S754_zero s => sign_prefix plus s +:+ "0.00"
  | S754_finite s m e =>
      let c := cents m e in
      let whole := decimal_digits (c / 100) in
      let whole := if comma then rev (group3 (rev whole)) else whole in
      sign_prefix plus s +:+
      string_of_list_ascii (whole ++ "."%char :: two_digits (c mod 100))
  end.

End PyFloat.

(** ** Configuration *)

Definition URL : string :=
  "https://www.32auctions.com/organizations/ORG_ID/auctions/AUCTION_ID?r=1&t=all".
Definition SUMMARY_URL : string := "https://www.32auctions.com/FRIENDLY_AUCTION_PATH".
Definition REFRESH_INTERVAL : nat := 10.
Definition MAX_LOGS : nat := 200.

(** ** Library functions the program calls

    [str.lower], [urllib.parse.urljoin] and the clock: the [n]-th call of
    [datetime.now(timezone.utc)] returns [now n]. *)

(** What [urljoin(base, href)] does: it returns the joined URL, or raises
    [ValueError] (on a malformed [href]) with the given text. *)
Inductive UrlJoin :=
  | Joined (url : string)
  | JoinRaises (e : string).

Class PyLib := {
  str_lower : string -> string;
  urljoin : string -> string -> UrlJoin;
  Time : Type;
  now : nat -> Time;
  strftime : Time -> string;
  isoformat : Time -> string;
  total_seconds : Time -> Time -> PyFloat.float
}.

Definition str_of_nat (n : nat) : string := NilZero.string_of_uint (Nat.to_uint n).

(** [str(x)] for a value that is a string or [None]. *)
Definition str_of_opt (o : option string) : string :=
  match o with Some s => s | None => "None" end.

(** [s.replace(c, '')] for a one-character [c]. *)
Fixpoint remove_char (c : ascii) (s : string) : string :=
  match s with
  | EmptyString => EmptyString
  | String a s' => if Ascii.eqb a c then remove_char c s' else String a (remove_char c s')
  end.

(** ** Total display (the [try]/[except] of [main], lines 272-277) *)

Definition parse_total (total_raised : option string) : option PyFloat.float :=
  match total_raised with
  | Some t =>
      if Str.truthy t
      then PyFloat.of_string (remove_char "," (remove_char "$" t))
      else Some PyFloat.zero
  | None => Some PyFloat.zero
  end.

Definition numeric_display (x : PyFloat.float) : string :=
  "$" +:+ PyFloat.format_2f false true x.

Definition fallback_display (total_raised : option string) (adj : PyFloat.float) : string :=
  str_of_opt total_raised +:+ " (+" +:+ PyFloat.format_2f true false adj +:+ ")".

Definition total_raised_display (total_raised : option string) (adj : PyFloat.float)
  : string :=
  match parse_total total_raised with
  | Some tr_float => numeric_display (PyFloat.add tr_float adj)
  | None => fallback_display total_raised adj
  end.

(** ** SharedState and EventBus *)

Record LogEntry := mkLogEntry { timestamp : string; message : string }.

Record Status := mkStatus {
  next_refresh_in : option nat;
  last_total : option string;
  last_refresh : option string
}.

Record StatusSnapshot := mkSnapshot {
  snap_status : Status;
  snap_refresh_paused : bool;
  snap_manual_adjustment : PyFloat.float;
  snap_filters : list string;
  snap_refresh_interval : nat
}.

Inductive EventData :=
  | DataStatus (s : StatusSnapshot)
  | DataLog (e : LogEntry).

Record Payload := mkPayload { ev_type : string; ev_data : EventData }.

(** [queue.Queue]: [maxsize <= 0] means no bound. *)
Record Queue := mkQueue { maxsize : Z; pending : list Payload }.

(** [Queue()] *)
Definition Queue_new : Queue := mkQueue 0 [].

Definition Queue_full (q : Queue) : bool :=
  (0 <? maxsize q)%Z && (maxsize q <=? Z.of_nat (length (pending q)))%Z.

(** [q.put(item, timeout=0.1)]: [None] stands for [queue.Full], raised when
    the queue is still full once the timeout has passed. *)
Definition Queue_put (item : Payload) (q : Queue) : option Queue :=
  if Queue_full q then None
  else Some (mkQueue (maxsize q) (pending q ++ [item])).

(** The module globals.  [event_subscribers] is a set of queue objects; a
    queue object is named by its identity. *)
Record Shared := mkShared {
  manual_adjustment : PyFloat.float;
  refresh_paused : bool;
  refresh_now : bool;
  log_entries : list LogEntry;
  status : Status;
  event_subscribers : gmap nat Queue;
  filters : list string;
  clock_reads : nat
}.

Definition initial : Shared :=
  mkShared PyFloat.zero false false []
           (mkStatus (Some REFRESH_INTERVAL) None None) ∅ [] 0.

Definition set_refresh_paused (b : bool) (st : Shared) : Shared :=
  mkShared (manual_adjustment st) b (refresh_now st) (log_entries st) (status st)
           (event_subscribers st) (filters st) (clock_reads st).

Definition set_refresh_now (b : bool) (st : Shared) : Shared :=
  mkShared (manual_adjustment st) (refresh_paused st) b (log_entries st) (status st)
           (event_subscribers st) (filters st) (clock_reads st).

Definition set_log_entries (l : list LogEntry) (st : Shared) : Shared :=
  mkShared (manual_adjustment st) (refresh_paused st) (refresh_now st) l (status st)
           (event_subscribers st) (filters st) (clock_reads st).

Definition set_status (s : Status) (st : Shared) : Shared :=
  mkShared (manual_adjustment st) (refresh_paused st) (refresh_now st) (log_entries st) s
           (event_subscribers st) (filters st) (clock_reads st).

Definition set_event_subscribers (m : gmap nat Queue) (st : Shared) : Shared :=
  mkShared (manual_adjustment st) (refresh_paused st) (refresh_now st) (log_entries st)
           (status st) m (filters st) (clock_reads st).

Definition set_clock_reads (n : nat) (st : Shared) : Shared :=
  mkShared (manual_adjustment st) (refresh_paused st) (refresh_now st) (log_entries st)
           (status st) (event_subscribers st) (filters st) n.

(** [status["next_refresh_in"] = v] *)
Definition set_next_refresh_in (v : option nat) (st : Shared) : Shared :=
  set_status (mkStatus v (last_total (status st)) (last_refresh (status st))) st.

Definition get_status_snapshot (st : Shared) : StatusSnapshot :=
  mkSnapshot (status st) (refresh_paused st) (manual_adjustment st) (filters st)
             REFRESH_INTERVAL.

(** One turn of the loop of [publish_event]: [put], and [continue] on any
    exception. *)
Definition deliver (payload : Payload) (q : Queue) : Queue :=
  match Queue_put payload q with
  | Some q' => q'
  | None => q
  end.

Definition publish_event (event_type : string) (data : EventData) (st : Shared) : Shared :=
  let payload := mkPayload event_type data in
  set_event_subscribers (deliver payload <$> event_subscribers st) st.

(** The keyword arguments of [update_status]: an absent key is [None]. *)
Record StatusKw := mkKw {
  kw_next_refresh_in : option (option nat);
  kw_last_total : option (option string);
  kw_last_refresh : option (option string)
}.

Definition kw_empty (kw : StatusKw) : bool :=
  match kw with
  | mkKw None None None => true
  | _ => false
  end.

(** [status.update(kwargs)] *)
Definition status_update (kw : StatusKw) (s : Status) : Status :=
  mkStatus (default (next_refresh_in s) (kw_next_refresh_in kw))
           (default (last_total s) (kw_last_total kw))
           (default (last_refresh s) (kw_last_refresh kw)).

Definition update_status (kw : StatusKw) (st : Shared) : StatusSnapshot * Shared :=
  let st := if kw_empty kw then st else set_status (status_update kw (status st)) st in
  let snapshot := get_status_snapshot st in
  (snapshot, publish_event "status" (DataStatus snapshot) st).

Definition subscribe_events (st : Shared) : nat * Shared :=
  let q := fresh (dom (event_subscribers st)) in
  (q, set_event_subscribers (<[q := Queue_new]> (event_subscribers st)) st).

Definition unsubscribe_events (q : nat) (st : Shared) : Shared :=
  set_event_subscribers (delete q (event_subscribers st)) st.

(** [log_entries.append(entry)], then [log_entries.pop(0)] when over the cap. *)
Definition append_capped (entry : LogEntry) (l : list LogEntry) : list LogEntry :=
  let l' := l ++ [entry] in
  if (MAX_LOGS <? length l')%nat then drop 1 l' else l'.

Section AddLog.
Context {lib : PyLib}.

Definition add_log (msg : string) (st : Shared) : Shared :=
  let stamp := strftime (now (clock_reads st)) in
  let entry := mkLogEntry stamp msg in
  let st := set_clock_reads (S (clock_reads st)) st in
  let st := set_log_entries (append_capped entry (log_entries st)) st in
  publish_event "log" (DataLog entry) st.

End AddLog.

(** ** The pagination walker: [fetch_auction_items] *)

(** What the walker reads off one fetched page: the items of the
    [a.item] elements that have a [.card], and the [href] of the next-page
    link when there is one. *)
Record Page := mkPage { cards : list Item; next_href : option string }.

(** The site behind [session.get]: a finite set of pages; on any other URL
    [get] or [raise_for_status] raises, with [failure url] as its text. *)
Record Web := mkWeb { pages : gmap string Page; failure : string -> string }.

(** Where a message goes: [add_log], or the [progress_cb] argument. *)
Inductive Sink := ToAddLog | ToProgress.

Record Walk := mkWalk {
  w_items : list Item;
  w_emitted : list (Sink * string);
  w_fetched : list string
}.

(** [title[:60] if title else 'Untitled'] *)
Definition short_title (t : option string) : string :=
  match t with
  | Some s => if Str.truthy s then String.substring 0 60 s else "Untitled"
  | None => "Untitled"
  end.

Definition found_message (it : Item) : Sink * string :=
  (ToProgress, "🔍 Found: " +:+ short_title (title it)).

Definition progress (progress_cb : bool) (msgs : list (Sink * string))
  : list (Sink * string) :=
  if progress_cb then msgs else [].

(** Lines 160-164: the new value of [next_url], or the exception that
    [urljoin], which no [try] guards, raises. *)
Inductive NextPage :=
  | NextUrl (next_url : option string)
  | NextRaises (e : string).

(** The next-page link: [urljoin(next_url, href)] when the [href] is there
    and not empty, else [None]. *)
Definition next_page `{PyLib} (url : string) (p : Page) : NextPage :=
  match next_href p with
  | Some h =>
      if Str.truthy h then
        match urljoin url h with
        | Joined u => NextUrl (Some u)
        | JoinRaises e => NextRaises e
        end
      else NextUrl None
  | None => NextUrl None
  end.

(** How the walk ends: it returns, or an exception leaves it; [w] is what
    it has collected, emitted and fetched by then. *)
Inductive WalkEnd :=
  | Returned (w : Walk)
  | WalkRaised (e : string) (w : Walk).

Definition walk_of (r : WalkEnd) : Walk :=
  match r with Returned w | WalkRaised _ w => w end.

(** [next_url and next_url not in seen_pages] *)
Definition keep_walking (next_url : option string) (seen_pages : gset string) : bool :=
  match next_url with
  | Some u => Str.truthy u && bool_decide (u ∉ seen_pages)
  | None => false
  end.

(** The [while] loop; one unit of [fuel] per turn, [None] when it runs out. *)
Fixpoint walk `{PyLib} (fuel : nat) (web : Web) (progress_cb : bool)
    (next_url : option string) (seen_pages : gset string) (acc : Walk)
  : option WalkEnd :=
  match next_url with
  | Some u =>
      if keep_walking next_url seen_pages then
        match fuel with
        | O => None
        | S fuel' =>
            let seen_pages := {[u]} ∪ seen_pages in
            match pages web !! u with
            | None =>
                Some (Returned (mkWalk (w_items acc)
                        (w_emitted acc ++
                         [(ToAddLog, "❌ Error fetching " +:+ u +:+ ": " +:+ failure web u)])
                        (w_fetched acc ++ [u])))
            | Some page =>
                let acc :=
                  mkWalk (w_items acc ++ cards page)
                     (w_emitted acc ++ progress progress_cb (map found_message (cards page)))
                     (w_fetched acc ++ [u]) in
                match next_page u page with
                | NextUrl next_url => walk fuel' web progress_cb next_url seen_pages acc
                | NextRaises e => Some (WalkRaised e acc)
                end
            end
        end
      else Some (Returned acc)
  | None => Some (Returned acc)
  end.

Definition collected_message (items : list Item) : Sink * string :=
  (ToProgress, "🔍 Scrape collected " +:+ str_of_nat (length items) +:+ " items").

(** A turn of the loop either ends the walk or takes a page not seen
    before, so one more turn than there are pages is always enough.  The
    last progress line is emitted after the loop, when no exception left
    it. *)
Definition fetch_auction_items `{PyLib} (web : Web) (url : string) (progress_cb : bool)
  : option WalkEnd :=
  match walk (S (size (pages web))) web progress_cb (Some url) ∅ (mkWalk [] [] []) with
  | Some (Returned w) =>
      Some (Returned (mkWalk (w_items w)
              (w_emitted w ++ progress progress_cb [collected_message (w_items w)])
              (w_fetched w)))
  | Some (WalkRaised e w) => Some (WalkRaised e w)
  | None => None
  end.

(** ** One scrape cycle (the body of the loop of [main], lines 259-296) *)

Inductive TotalsResponse :=
  | TotalsRaise (e : string)            (* [get] or [raise_for_status] raised *)
  | TotalsPage (amt : option string).   (* the text of [div.raised.amt], if any *)

(** What the outside world does during one cycle.  [write_error] is the
    exception of [open] or [json.dump], if one is raised. *)
Record CycleEnv := mkEnv {
  env_web : Web;
  env_totals : TotalsResponse;
  env_write_error : option string
}.

Record ScrapeOutput := mkOutput {
  refreshed_at : string;
  out_url : string;
  total_items : nat;
  total_raised : string;
  items : list Item
}.

(** How a cycle ends: it completes, an exception leaves it, or (were the
    walker not to return) it never ends. *)
Inductive Outcome :=
  | Completed (st : Shared) (written : ScrapeOutput)
  | Raised (e : string) (st : Shared)
  | Unfinished.

Section Cycle.
Context {lib : PyLib}.

Definition add_logs (msgs : list string) (st : Shared) : Shared :=
  foldl (fun st m => add_log m st) st msgs.

Definition get_total_raised (resp : TotalsResponse) (st : Shared)
  : option string * Shared :=
  match resp with
  | TotalsPage amt => (amt, st)
  | TotalsRaise e => (None, add_log ("❌ Error fetching total raised: " +:+ e) st)
  end.

Definition filtered_message (entry : Item * string) : string :=
  let '(item, term) := entry in
  let title :=
    match title item with
    | Some t => if Str.truthy t then t else "Untitled"
    | None => "Untitled"
    end in
  "🚫 Filtered item '" +:+ title +:+ "' (matched '" +:+ term +:+ "')".

(** [datetime.now(timezone.utc)] *)
Definition read_clock (st : Shared) : Time * Shared :=
  (now (clock_reads st), set_clock_reads (S (clock_reads st)) st).

Definition run_cycle (env : CycleEnv) (st : Shared) : Outcome :=
  let st := add_log "🚀 Beginning scrape cycle" st in
  let '(start_time, st) := read_clock st in
  match fetch_auction_items (env_web env) URL true with
  | None => Unfinished
  | Some (WalkRaised e w) => Raised e (add_logs (map snd (w_emitted w)) st)
  | Some (Returned w) =>
      let st := add_logs (map snd (w_emitted w)) st in
      let '(kept_items, filtered_out) :=
        apply_filters_to_items str_lower (filters st) (w_items w) in
      let st := add_logs (map filtered_message filtered_out) st in
      let st :=
        match filtered_out with
        | [] => st
        | _ :: _ =>
            add_log ("🧹 Filtered out " +:+ str_of_nat (length filtered_out)
                     +:+ " item(s) before saving") st
        end in
      let '(fetched_total, st) := get_total_raised (env_totals env) st in
      let adj := manual_adjustment st in
      let display := total_raised_display fetched_total adj in
      let '(t_out, st) := read_clock st in
      let output := mkOutput (isoformat t_out) URL (length kept_items) display kept_items in
      match env_write_error env with
      | Some e => Raised e st
      | None =>
          let '(end_time, st) := read_clock st in
          let duration := total_seconds end_time start_time in
          let st := add_log ("🎉 Inventory completed at " +:+ strftime end_time
                             +:+ " (Duration: " +:+ PyFloat.format_2f false false duration
                             +:+ " seconds)") st in
          let st := add_log ("💾 Saved " +:+ str_of_nat (length kept_items)
                             +:+ " items to auction_items.json") st in
          let st := add_log ("💰 Total Raised: " +:+ display) st in
          let '(_, st) :=
            update_status (mkKw (Some (Some REFRESH_INTERVAL)) (Some (Some display))
                                (Some (Some (isoformat end_time)))) st in
          Completed st output
      end
  end.

End Cycle.

(** ** ControlSurface handlers

    A handler is a sequence of steps, each done under one lock or inside
    one call; other threads may run between two of them. *)

Inductive Atom :=
  | ASetPaused (b : bool)               (* [refresh_paused = b] *)
  | ASetNow                             (* [refresh_now = True] *)
  | ASetAdjustment (amt : PyFloat.float)
  | AUpdateStatus (kw : StatusKw)
  | AAddLog (msg : string).

Definition kw_none : StatusKw := mkKw None None None.
Definition kw_next (v : option nat) : StatusKw := mkKw (Some v) None None.

Definition set_manual_adjustment (amt : PyFloat.float) (st : Shared) : Shared :=
  mkShared amt (refresh_paused st) (refresh_now st) (log_entries st) (status st)
           (event_subscribers st) (filters st) (clock_reads st).

Section Handlers.
Context {lib : PyLib}.

Definition run_atom (a : Atom) (st : Shared) : Shared :=
  match a with
  | ASetPaused b => set_refresh_paused b st
  | ASetNow => set_refresh_now true st
  | ASetAdjustment amt => set_manual_adjustment amt st
  | AUpdateStatus kw => snd (update_status kw st)
  | AAddLog msg => add_log msg st
  end.

Definition run_atoms (script : list Atom) (st : Shared) : Shared :=
  foldl (fun st a => run_atom a st) st script.

(** [POST /refresh] with [state] as the request's field. *)
Definition set_refresh_script (state : string) : list Atom :=
  let state := str_lower state in
  if String.eqb state "pause" then
    [ASetPaused true; AUpdateStatus (kw_next None); AAddLog "⏸️ Refresh paused"]
  else if String.eqb state "resume" then
    [ASetPaused false; AUpdateStatus (kw_next (Some REFRESH_INTERVAL));
     AAddLog "▶️ Refresh resumed"]
  else if String.eqb state "now" then
    [ASetNow; AUpdateStatus (kw_next (Some 0)); AAddLog "🔁 Manual refresh requested"]
  else [].

Definition set_refresh (state : string) (st : Shared) : Shared :=
  run_atoms (set_refresh_script state) st.

(** [POST /adjustment] with an amount that [float] accepted. *)
Definition set_adjustment_script (amt : PyFloat.float) : list Atom :=
  [ASetAdjustment amt;
   AAddLog ("Manual adjustment set to " +:+ PyFloat.format_2f true false amt);
   AUpdateStatus kw_none].

Definition set_adjustment (amt : PyFloat.float) (st : Shared) : Shared :=
  run_atoms (set_adjustment_script amt) st.

End Handlers.

(** ** Scheduler: the loop of [main]

    The control points of the loop, between two of which the scheduler
    thread does one lock-protected read or write, one [sleep], or one
    cycle.  The locals [paused], [do_refresh_now] and [i] are part of the
    control point. *)

Inductive PC :=
  | Top                  (* line 224: about to read [refresh_paused] *)
  | PausedStatus         (* line 227: paused, about to write [None] *)
  | PausedSleep          (* line 229 *)
  | CheckNow             (* line 232: about to read [refresh_now] *)
  | CdPause (i : nat)    (* line 239: pause check of tick [i] *)
  | CdPausedStatus       (* line 243: pause seen in the countdown *)
  | CdNow (i : nat)      (* line 246: trigger check of tick [i] *)
  | CdStatus (i : nat)   (* line 251: about to write [i] *)
  | CdSleep (i : nat)    (* line 253 *)
  | CdDone               (* line 254: the countdown ran out, [paused] is false *)
  | Run                  (* line 257: about to write [0] and start a cycle *)
  | Cycle                (* lines 259-296 *)
  | Crashed (e : string) (* an exception left [main] *).

(** The states of the specification's state machine. *)
Inductive SchedState := COUNTING_DOWN | PAUSED | RUNNING_CYCLE | STOPPED.

Definition observed (pc : PC) : SchedState :=
  match pc with
  | PausedStatus | PausedSleep | CdPausedStatus => PAUSED
  | Run | Cycle => RUNNING_CYCLE
  | Crashed _ => STOPPED
  | _ => COUNTING_DOWN
  end.

(** [for i in range(n, 0, -1)]: the first control point of tick [n], or
    the end of the loop. *)
Definition countdown_from (n : nat) : PC :=
  match n with
  | O => CdDone
  | S _ => CdPause n
  end.

Record Sys := mkSys { pc : PC; shared : Shared }.

Inductive Label :=
  | LObserve               (* a read or write under a lock *)
  | LSleep                 (* [time.sleep(1)] *)
  | LConsume               (* [refresh_now] read as set, and cleared *)
  | LExpire                (* the countdown ran out *)
  | LStart                 (* a cycle starts *)
  | LCycle (env : CycleEnv)
  | LEnv (a : Atom)        (* a step of a request handler *).

Section Scheduler.
Context {lib : PyLib}.

(** One step of the scheduler thread; [env] is used by the cycle only.
    The cycle is taken as one step: it reads and writes neither of the two
    flags, so as far as they go a handler step that falls inside a cycle
    can be placed before or after it. *)
Definition sched_step (env : CycleEnv) (s : Sys) : option (Label * Sys) :=
  let st := shared s in
  match pc s with
  | Top =>
      Some (LObserve, mkSys (if refresh_paused st then PausedStatus else CheckNow) st)
  | PausedStatus => Some (LObserve, mkSys PausedSleep (set_next_refresh_in None st))
  | PausedSleep => Some (LSleep, mkSys Top st)
  | CheckNow =>
      if refresh_now st then Some (LConsume, mkSys Run (set_refresh_now false st))
      else Some (LObserve, mkSys (countdown_from REFRESH_INTERVAL) st)
  | CdPause i =>
      Some (LObserve, mkSys (if refresh_paused st then CdPausedStatus else CdNow i) st)
  | CdPausedStatus => Some (LObserve, mkSys Top (set_next_refresh_in None st))
  | CdNow i =>
      if refresh_now st then Some (LConsume, mkSys Run (set_refresh_now false st))
      else Some (LObserve, mkSys (CdStatus i) st)
  | CdStatus i => Some (LObserve, mkSys (CdSleep i) (set_next_refresh_in (Some i) st))
  | CdSleep i => Some (LSleep, mkSys (countdown_from (i - 1)) st)
  | CdDone => Some (LExpire, mkSys Run st)
  | Run => Some (LStart, mkSys Cycle (set_next_refresh_in (Some 0) st))
  | Cycle =>
      match run_cycle env st with
      | Completed st' _ => Some (LCycle env, mkSys Top st')
      | Raised e st' => Some (LCycle env, mkSys (Crashed e) st')
      | Unfinished => None
      end
  | Crashed _ => None
  end.

(** The scheduler thread interleaved with the handlers' steps.  Any
    handler step may come at any time: every interleaving of the scheduler
    with any number of requests is a run. *)
Inductive step : Sys -> Label -> Sys -> Prop :=
  | step_sched env s l s' : sched_step env s = Some (l, s') -> step s l s'
  | step_env a s : step s (LEnv a) (mkSys (pc s) (run_atom a (shared s))).

Inductive exec : Sys -> list Label -> Sys -> Prop :=
  | exec_nil s : exec s [] s
  | exec_cons s l s' ls s'' : step s l s' -> exec s' ls s'' -> exec s (l :: ls) s''.

(** The scheduler thread alone, for [n] steps. *)
Fixpoint sched_run (env : CycleEnv) (n : nat) (s : Sys) : option (list Label * Sys) :=
  match n with
  | O => Some ([], s)
  | S n' =>
      match sched_step env s with
      | Some (l, s') =>
          match sched_run env n' s' with
          | Some (ls, s'') => Some (l :: ls, s'')
          | None => None
          end
      | None => None
      end
  end.

(** A schedule: runs of scheduler steps and handler steps in turn. *)
Inductive Move :=
  | Sched (n : nat)      (* [n] steps of the scheduler thread *)
  | Handler (a : Atom)   (* one step of a request handler *).

Fixpoint play (env : CycleEnv) (ms : list Move) (s : Sys) : option (list Label * Sys) :=
  match ms with
  | [] => Some ([], s)
  | m :: ms' =>
      let first :=
        match m with
        | Sched n => sched_run env n s
        | Handler a => Some ([LEnv a], mkSys (pc s) (run_atom a (shared s)))
        end in
      match first with
      | Some (ls, s') =>
          match play env ms' s' with
          | Some (ls', s'') => Some (ls ++ ls', s'')
          | None => None
          end
      | None => None
      end
  end.

End Scheduler.

Definition count_label (P : Label -> bool) (ls : list Label) : nat :=
  length (List.filter P ls).

Definition is_consume (l : Label) : bool :=
  match l with LConsume => true | _ => false end.
Definition is_start (l : Label) : bool :=
  match l with LStart => true | _ => false end.
Definition is_sleep (l : Label) : bool :=
  match l with LSleep => true | _ => false end.
Definition is_unpause (l : Label) : bool :=
  match l with LEnv (ASetPaused false) => true | _ => false end.

Definition b2n (b : bool) : nat := if b then 1 else 0.


(** The control points at which the scheduler has seen the pause flag set
    or is about to read it. *)
Definition pause_side (p : PC) : bool :=
  match p with
  | Top | PausedStatus | PausedSleep | CdPausedStatus | CdPause _ => true
  | _ => false
  end.

(** [main] logs its start before it enters the loop. *)
Definition main_start `{PyLib} (st : Shared) : Sys :=
  mkSys Top (add_log "⏳ Starting 32datasources auction data retrieval service..." st).

(** ** Notions the claims are stated with *)

(** [term] occurs in [text] when case is ignored. *)
Definition ci_substring (lower : string -> string) (term text : string) : Prop :=
  exists pre post, lower text = pre +:+ lower term +:+ post.

(** The title of a record as text; a missing title has none. *)
Definition title_text (it : Item) : string :=
  match title it with Some t => t | None => "" end.

(** What the loop of [apply_filters_to_items] decides for one record. *)
Definition verdict (lower : string -> string) (active : list (string * string))
    (item : Item) : option string :=
  match first_match active (lower (title_or_empty item)) with
  | Some matched => if Str.truthy matched then Some matched else None
  | None => None
  end.

Definition is_kept lower active (item : Item) : bool :=
  match verdict lower active item with Some _ => false | None => true end.

Definition rejection lower active (item : Item) : option (Item * string) :=
  match verdict lower active item with Some m => Some (item, m) | None => None end.

(** A lower-casing function sends the empty string, and nothing else, to
    the empty string. *)
Definition lower_keeps_empty (lower : string -> string) : Prop :=
  forall s, lower s = "" <-> s = "".

(** A library to run examples with: ASCII lower-casing; [urljoin] on
    absolute [http] links, which it returns as they are, unless one opens a
    bracket after the scheme and never closes it, for which it raises
    [ValueError: Invalid IPv6 URL]; and a clock that reads one second more
    at every call, from 2024-01-01 00:00:00 UTC, within that day. *)
Module Demo.

Definition two (n : nat) : string :=
  str_of_nat (n / 10) +:+ str_of_nat (n mod 10).

Definition hms (n : nat) : string :=
  two (n / 3600) +:+ ":" +:+ two (n / 60 mod 60) +:+ ":" +:+ two (n mod 60).

Definition lib : PyLib := {|
  str_lower := Str.lower;
  urljoin := fun _ href =>
    if Str.starts_with "http://[" href && negb (Str.contains "]" href)
    then JoinRaises "Invalid IPv6 URL" else Joined href;
  Time := nat;
  now := fun n => n;
  strftime := fun t => "2024-01-01 " +:+ hms t +:+ " UTC";
  isoformat := fun t => "2024-01-01T" +:+ hms t +:+ "+00:00";
  total_seconds := fun a b =>
    binary_normalize PyFloat.prec PyFloat.emax (Z.of_nat a - Z.of_nat b) 0 false
|}.

Definition item (t : string) : Item := mkItem (Some t) None None None None None.

(** The float that a decimal literal denotes. *)
Definition flt (s : string) : PyFloat.float := default PyFloat.zero (PyFloat.of_string s).

(** A site with no page at all: every fetch fails. *)
Definition no_web : Web := mkWeb ∅ (fun _ => "404 Client Error").

Definition written (o : Outcome) : option string :=
  match o with
  | Completed _ out => Some (total_raised out)
  | _ => None
  end.

End Demo.

(** The entries that a run of [add_log] calls creates, the first of them
    at clock reading [n]. *)
Fixpoint stamp_from `{PyLib} (n : nat) (msgs : list string) : list LogEntry :=
  match msgs with
  | [] => []
  | m :: ms => mkLogEntry (strftime (now n)) m :: stamp_from (S n) ms
  end.

(** All the channels registered were made by [subscribe_events]. *)
Definition all_unbounded (st : Shared) : Prop :=
  forall h q, event_subscribers st !! h = Some q -> maxsize q = 0%Z.

(** The two flags that the handlers set and the scheduler reads. *)
Definition flags (st : Shared) : bool * bool := (refresh_paused st, refresh_now st).

(** ** [POST /filters]: [set_filters] *)

Module PyStr.

(** The characters that [str.strip()] removes. *)
Definition is_space (c : ascii) : bool :=
  let n := nat_of_ascii c in
  ((9 <=? n) && (n <=? 13) || (28 <=? n) && (n <=? 32) || (n =? 133) || (n =? 160))%nat.

Fixpoint lstrip (l : list ascii) : list ascii :=
  match l with
  | c :: l' => if is_space c then lstrip l' else l
  | [] => []
  end.

Definition strip_list (l : list ascii) : list ascii :=
  rev (lstrip (rev (lstrip l))).

(** [s.strip()] *)
Definition strip (s : string) : string :=
  string_of_list_ascii (strip_list (list_ascii_of_string s)).

(** [s.split(c)] for a one-character separator. *)
Fixpoint split (c : ascii) (s : string) : list string :=
  match s with
  | EmptyString => [EmptyString]
  | String a s' =>
      if Ascii.eqb a c then EmptyString :: split c s'
      else match split c s' with
           | seg :: rest => String a seg :: rest
           | [] => [String a EmptyString]
           end
  end.

(** [sep.join(parts)] *)
Definition join (sep : string) (parts : list string) : string := String.concat sep parts.

End PyStr.

(** The value of [data.get('keywords', [])]: a string, a list or tuple
    whose elements are given by what [str] makes of them, or any other
    value, given likewise.  A missing key is the empty list. *)
Inductive RawFilters :=
  | RawStr (s : string)
  | RawList (rendered : list string)
  | RawOther (rendered : string).

(** One turn of the loops of [set_filters]: the stripped value, if it is
    not empty. *)
Definition keyword_of (value_str : string) : option string :=
  let stripped := PyStr.strip value_str in
  if Str.truthy stripped then Some stripped else None.

Definition parse_filters (raw_filters : RawFilters) : list string :=
  match raw_filters with
  | RawStr s => omap keyword_of (PyStr.split "," s)
  | RawList values => omap keyword_of values
  | RawOther v => omap keyword_of [v]
  end.

Definition set_filters_list (l : list string) (st : Shared) : Shared :=
  mkShared (manual_adjustment st) (refresh_paused st) (refresh_now st) (log_entries st)
           (status st) (event_subscribers st) l (clock_reads st).

(** The handler's effect on the globals, and the filter list of its reply. *)
Definition set_filters `{PyLib} (raw_filters : RawFilters) (st : Shared)
  : list string * Shared :=
  let parsed_filters := parse_filters raw_filters in
  let st := set_filters_list parsed_filters st in
  let active_filters := filters st in
  let display_value :=
    match active_filters with
    | [] => "none"
    | _ :: _ => PyStr.join ", " active_filters
    end in
  let st := add_log ("Filters updated: " +:+ display_value) st in
  (active_filters, snd (update_status kw_none st)).

(** ** [GET /stream]: [stream_events] *)

Definition KEEPALIVE_SECONDS : nat := 15.

(** [q.get(timeout=...)]: the oldest item; [None] stands for [queue.Empty],
    raised when nothing has arrived once the timeout has passed. *)
Definition Queue_get (q : Queue) : option (Payload * Queue) :=
  match pending q with
  | [] => None
  | item :: rest => Some (item, mkQueue (maxsize q) rest)
  end.

(** [json.dumps] on the three kinds of value the stream sends. *)
Class JsonLib := {
  dumps_status : StatusSnapshot -> string;
  dumps_logs : list LogEntry -> string;
  dumps_entry : LogEntry -> string
}.

Definition dumps_data `{JsonLib} (d : EventData) : string :=
  match d with
  | DataStatus snap => dumps_status snap
  | DataLog e => dumps_entry e
  end.

Definition newline : string := String (ascii_of_nat 10) EmptyString.

(** [f"event: {event}\ndata: {data}\n\n"] *)
Definition frame (event data : string) : string :=
  "event: " +:+ event +:+ newline +:+ "data: " +:+ data +:+ newline +:+ newline.

Definition ping_frame : string := frame "ping" "{}".

Definition event_frame `{JsonLib} (ev : Payload) : string :=
  frame (ev_type ev) (dumps_data (ev_data ev)).

(** The generator up to its loop: it subscribes, yields the status, and
    yields the log buffer when there is one. *)
Definition stream_open `{JsonLib} (st : Shared) : nat * list string * Shared :=
  let '(q, st) := subscribe_events st in
  let first := frame "status" (dumps_status (get_status_snapshot st)) in
  let logs_copy := log_entries st in
  let second :=
    match logs_copy with
    | [] => []
    | _ :: _ => [frame "logs" (dumps_logs logs_copy)]
    end in
  (q, first :: second, st).

(** One turn of the generator's loop on its queue [q]. *)
Definition stream_next `{JsonLib} (q : nat) (st : Shared) : string * Shared :=
  match event_subscribers st !! q with
  | Some qu =>
      match Queue_get qu with
      | Some (event, qu') =>
          (event_frame event, set_event_subscribers (<[q := qu']> (event_subscribers st)) st)
      | None => (ping_frame, st)
      end
  | None => (ping_frame, st)
  end.

(** [n] turns of the loop: the frames yielded, in order. *)
Fixpoint stream_read `{JsonLib} (n : nat) (q : nat) (st : Shared) : list string * Shared :=
  match n with
  | O => ([], st)
  | S n' =>
      let '(f, st) := stream_next q st in
      let '(fs, st) := stream_read n' q st in
      (f :: fs, st)
  end.

(** The [finally] of the generator. *)
Definition stream_close (q : nat) (st : Shared) : Shared := unsubscribe_events q st.

(** ** Notions the further properties are stated with *)

(** [publish_event] for each event of a list, in order. *)
Definition publish_all (evs : list (string * EventData)) (st : Shared) : Shared :=
  foldl (fun st ev => publish_event (fst ev) (snd ev) st) st evs.

Definition payload_of (ev : string * EventData) : Payload := mkPayload (fst ev) (snd ev).

Definition log_within_cap (st : Shared) : Prop := length (log_entries st) <= MAX_LOGS.

(** The cards of the page at [u], none if there is no page. *)
Definition cards_at (web : Web) (u : string) : list Item :=
  match pages web !! u with Some p => cards p | None => [] end.

(** Each URL of the list has a page whose next-page link is the URL that
    follows it. *)
Fixpoint link_chain `{PyLib} (web : Web) (urls : list string) : Prop :=
  match urls with
  | u :: ((v :: _) as rest) =>
      (exists p, pages web !! u = Some p /\ next_page u p = NextUrl (Some v))
      /\ link_chain web rest
  | _ => True
  end.

Definition is_error_log (e : Sink * string) : bool :=
  match fst e with ToAddLog => true | ToProgress => false end.

(** The text the totals fetch hands to the cycle. *)
Definition totals_text (resp : TotalsResponse) : option string :=
  match resp with TotalsPage amt => amt | TotalsRaise _ => None end.

(** A string with something in it and no white space at either end. *)
Definition trimmed (s : string) : Prop := s <> "" /\ PyStr.strip s = s.

(** The scheduler's labels of tick [i] of an undisturbed countdown, and of
    the ticks from [i] down to 1. *)
Definition tick_labels : list Label := [LObserve; LObserve; LObserve; LSleep].

Fixpoint countdown_labels (i : nat) : list Label :=
  match i with
  | O => []
  | S i' => tick_labels ++ countdown_labels i'
  end.

(** [c in s] for a character [c]. *)
Fixpoint has_char (c : ascii) (s : string) : bool :=
  match s with
  | EmptyString => false
  | String a s' => Ascii.eqb a c || has_char c s'
  end.

(** The error line of a walk that stopped on [last_url]: there is one when
    that URL has no page. *)
Definition error_logs_of (web : Web) (last_url : option string) : list (Sink * string) :=
  match last_url with
  | Some u =>
      match pages web !! u with
      | None => [(ToAddLog, "❌ Error fetching " +:+ u +:+ ": " +:+ failure web u)]
      | Some _ => []
      end
  | None => []
  end.

Definition is_progress (e : Sink * string) : bool := negb (is_error_log e).

(** A stand-in for [json.dumps] to run the stream with: it writes a log
    entry as its message between quotes and everything else as [{}]. *)
Definition demo_json : JsonLib := {|
  dumps_status := fun _ => "{}";
  dumps_logs := fun _ => "{}";
  dumps_entry := fun e => String (ascii_of_nat 34) (message e) +:+ String (ascii_of_nat 34) ""
|}.

(** From [st] to [st'] nobody was registered or removed, and every
    channel holds what it held, followed by what has come since. *)
Definition channels_extend (st st' : Shared) : Prop :=
  dom (event_subscribers st') = dom (event_subscribers st)
  /\ forall h q, event_subscribers st !! h = Some q -> maxsize q = 0%Z ->
       exists more, event_subscribers st' !! h = Some (mkQueue 0 (pending q ++ more)).

(** No page of the site has a next-page link that [urljoin] rejects. *)
Definition links_well_formed `{PyLib} (web : Web) : Prop :=
  forall u p e, pages web !! u = Some p -> next_page u p <> NextRaises e.

(** Where a walk that has fetched [fetched] stands after its last fetch:
    that fetch failed, or its page has no next-page link, or the link is
    empty or leads to a URL fetched before.  With none fetched, there was
    nothing to fetch. *)
Definition walk_exhausted `{PyLib} (web : Web) (fetched : list string) : Prop :=
  match last fetched with
  | None => True
  | Some u =>
      match pages web !! u with
      | None => True
      | Some p =>
          match next_page u p with
          | NextUrl None => True
          | NextUrl (Some v) => v = "" \/ In v fetched
          | NextRaises _ => False
          end
      end
  end.

(** The walk was left by the exception [e] of the next-page link of the
    page fetched last. *)
Definition walk_broken `{PyLib} (web : Web) (fetched : list string) (e : string) : Prop :=
  exists u p, last fetched = Some u /\ pages web !! u = Some p
    /\ next_page u p = NextRaises e.



(** * Theorems *)

(** ** Strings *)

Lemma starts_with_spec needle hay :
  Str.starts_with needle hay = true <-> exists post, hay = needle +:+ post.
Proof.
  revert hay; induction needle as [|a n IH]; intros hay; simpl.
  - split; [intros _; exists hay; reflexivity | reflexivity].
  - destruct hay as [|b h].
    + split; [discriminate | intros [post Hp]; discriminate].
    + destruct (Ascii.eqb a b) eqn:E.
      * apply Ascii.eqb_eq in E; subst b. rewrite IH.
        split; intros [post Hp]; exists post; [now rewrite Hp | now inversion Hp].
      * apply Ascii.eqb_neq in E.
        split; [discriminate | intros [post Hp]; inversion Hp; congruence].
Qed.

Lemma contains_spec needle hay :
  Str.contains needle hay = true <-> exists pre post, hay = pre +:+ needle +:+ post.
Proof.
  induction hay as [|c h IH].
  - simpl. rewrite orb_false_r, starts_with_spec. split.
    + intros [post Hp]; exists "", post; exact Hp.
    + intros [pre [post Hp]]. destruct pre; [exists post; exact Hp | discriminate].
  - cbn [Str.contains]. rewrite orb_true_iff, starts_with_spec, IH. split.
    + intros [[post Hp] | [pre [post Hp]]].
      * exists "", post; exact Hp.
      * exists (String c pre), post; simpl; now rewrite Hp.
    + intros [pre [post Hp]]. destruct pre as [|a pre].
      * left; exists post; exact Hp.
      * right; exists pre, post. simpl in Hp. now inversion Hp.
Qed.

Lemma contains_empty_hay needle : Str.contains needle "" = true -> needle = "".
Proof. destruct needle; [reflexivity | discriminate]. Qed.

Lemma truthy_nonempty s : Str.truthy s = true <-> s <> "".
Proof. destruct s; simpl; split; congruence. Qed.

Lemma title_or_empty_text it : title_or_empty it = title_text it.
Proof. unfold title_or_empty, title_text. destruct (title it) as [[|]|]; reflexivity. Qed.

(** ** FilterEngine *)

Section FilterFacts.
Variable lower : string -> string.

Lemma active_filters_in f t filters :
  In (f, t) (active_filters lower filters) <-> In f filters /\ f <> "" /\ t = lower f.
Proof.
  unfold active_filters. rewrite in_map_iff. split.
  - intros [x [Hx Hin]]. inversion Hx; subst. apply filter_In in Hin as [Hin Ht].
    apply truthy_nonempty in Ht. auto.
  - intros (Hin & Hne & ->). exists f. split; [reflexivity|].
    apply filter_In. split; [exact Hin | now apply truthy_nonempty].
Qed.

(** [first_match] returns the first pair whose term occurs in the text. *)
Lemma first_match_some active text m :
  first_match active text = Some m <->
  exists pre t post, active = pre ++ (m, t) :: post
    /\ Str.contains t text = true
    /\ Forall (fun p => Str.contains (snd p) text = false) pre.
Proof.
  induction active as [|[o t] rest IH]; simpl.
  - split; [discriminate | intros (pre & t & post & H & _); destruct pre; discriminate].
  - destruct (Str.contains t text) eqn:E.
    + split.
      * intros [= ->]. exists [], t, rest. auto.
      * intros (pre & t' & post & H & Hc & Hpre). destruct pre as [|p pre].
        -- inversion H; subst. reflexivity.
        -- inversion H; subst. inversion Hpre; subst. simpl in *. congruence.
    + rewrite IH. split.
      * intros (pre & t' & post & -> & Hc & Hpre).
        exists ((o, t) :: pre), t', post. repeat split; auto.
      * intros (pre & t' & post & H & Hc & Hpre). destruct pre as [|p pre].
        -- inversion H; subst. congruence.
        -- inversion H; subst. inversion Hpre; subst. exists pre, t', post. auto.
Qed.


(** The originals of the active filters are not empty, so the test
    [if matched:] succeeds whenever a term matched. *)
Lemma verdict_first_match filters it :
  verdict lower (active_filters lower filters) it =
  first_match (active_filters lower filters) (lower (title_or_empty it)).
Proof.
  unfold verdict. destruct (first_match _ _) as [m|] eqn:E; [|reflexivity].
  apply first_match_some in E as (pre & t & post & Hact & _ & _).
  assert (Hin : In (m, t) (active_filters lower filters))
    by (rewrite Hact; apply in_or_app; right; left; reflexivity).
  apply active_filters_in in Hin as (_ & Hne & _).
  apply truthy_nonempty in Hne. now rewrite Hne.
Qed.

Lemma filter_loop_spec active its kept out :
  filter_loop lower active its kept out =
  (kept ++ List.filter (is_kept lower active) its,
   out ++ omap (rejection lower active) its).
Proof.
  revert kept out; induction its as [|it its IH]; intros kept out; simpl.
  - now rewrite !app_nil_r.
  - unfold is_kept, rejection, verdict.
    destruct (first_match active (lower (title_or_empty it))) as [m|]; simpl.
    + destruct (Str.truthy m); simpl; rewrite IH, <- ?app_assoc; reflexivity.
    + rewrite IH, <- app_assoc. reflexivity.
Qed.

Lemma partition_perm active its :
  Permutation (List.filter (is_kept lower active) its
               ++ map fst (omap (rejection lower active) its)) its.
Proof.
  induction its as [|it its IH]; simpl; [constructor|].
  unfold is_kept at 1, rejection at 1.
  destruct (verdict lower active it); simpl.
  - apply Permutation_sym, Permutation_cons_app, Permutation_sym, IH.
  - constructor; exact IH.
Qed.

Lemma in_rejected active its it m :
  In (it, m) (omap (rejection lower active) its) <->
  In it its /\ verdict lower active it = Some m.
Proof.
  induction its as [|x its IH]; simpl; [tauto|].
  unfold rejection at 1. destruct (verdict lower active x) as [mx|] eqn:E; simpl.
  - rewrite IH. split.
    + intros [[= <- <-] | [H1 H2]]; auto.
    + intros [[-> | Hin] Hv]; [left; congruence | right; auto].
  - rewrite IH. split.
    + intros [H1 H2]; auto.
    + intros [[-> | Hin] Hv]; [congruence | auto].
Qed.

Lemma in_kept active its it :
  In it (List.filter (is_kept lower active) its) <->
  In it its /\ verdict lower active it = None.
Proof.
  rewrite filter_In. unfold is_kept. destruct (verdict lower active it); split;
    intros [H1 H2]; (split; [exact H1 | congruence]).
Qed.

Lemma apply_filters_eq filters its :
  apply_filters_to_items lower filters its =
  (List.filter (is_kept lower (active_filters lower filters)) its,
   omap (rejection lower (active_filters lower filters)) its).
Proof.
  unfold apply_filters_to_items.
  destruct (active_filters lower filters) as [|p rest] eqn:E.
  - f_equal.
    + symmetry. apply forallb_filter_id. apply forallb_forall. reflexivity.
    + induction its; simpl; auto.
  - rewrite filter_loop_spec. reflexivity.
Qed.

End FilterFacts.

Section FilterClaims.
Variable lower : string -> string.

Lemma ci_substring_contains term text :
  ci_substring lower term text <-> Str.contains (lower term) (lower text) = true.
Proof. unfold ci_substring. now rewrite contains_spec. Qed.

Lemma active_filters_wf F :
  Forall (fun t => t <> "") F ->
  active_filters lower F = map (fun f => (f, lower f)) F.
Proof.
  intros HF. unfold active_filters. f_equal.
  induction HF as [|t F Ht _ IH]; simpl; [reflexivity|].
  apply truthy_nonempty in Ht. now rewrite Ht, IH.
Qed.

Lemma first_match_map F text m :
  first_match (map (fun f => (f, lower f)) F) text = Some m <->
  exists pre post, F = pre ++ m :: post
    /\ Str.contains (lower m) text = true
    /\ Forall (fun t => Str.contains (lower t) text = false) pre.
Proof.
  induction F as [|f F IH]; simpl.
  - split; [discriminate | intros (pre & post & H & _); destruct pre; discriminate].
  - destruct (Str.contains (lower f) text) eqn:E.
    + split.
      * intros [= ->]. exists [], F. auto.
      * intros (pre & post & H & Hc & Hpre). destruct pre as [|p pre]; inversion H; subst.
        -- reflexivity.
        -- inversion Hpre; subst. congruence.
    + rewrite IH. split.
      * intros (pre & post & -> & Hc & Hpre). exists (f :: pre), post. auto.
      * intros (pre & post & H & Hc & Hpre). destruct pre as [|p pre]; inversion H; subst.
        -- congruence.
        -- inversion Hpre; subst. exists pre, post. auto.
Qed.

Lemma first_match_map_none F text :
  first_match (map (fun f => (f, lower f)) F) text = None <->
  forall t, In t F -> Str.contains (lower t) text = false.
Proof.
  induction F as [|f F IH]; simpl.
  - split; [intros _ t [] | reflexivity].
  - destruct (Str.contains (lower f) text) eqn:E.
    + split; [discriminate | intros H; specialize (H f (or_introl eq_refl)); congruence].
    + rewrite IH. split.
      * intros H t [<- | Hin]; auto.
      * intros H t Hin; apply H; now right.
Qed.

(** The verdict on one record, for a filter set of non-empty terms. *)
Lemma verdict_wf F it :
  Forall (fun t => t <> "") F ->
  verdict lower (active_filters lower F) it =
  first_match (map (fun f => (f, lower f)) F) (lower (title_text it)).
Proof.
  intros HF. rewrite verdict_first_match, active_filters_wf, title_or_empty_text; auto.
Qed.

Lemma verdict_some_iff F it :
  Forall (fun t => t <> "") F ->
  (exists m, verdict lower (active_filters lower F) it = Some m) <->
  (exists t, In t F /\ ci_substring lower t (title_text it)).
Proof.
  intros HF. rewrite verdict_wf by exact HF. split.
  - intros [m Hm]. apply first_match_map in Hm as (pre & post & -> & Hc & _).
    exists m. split; [apply in_or_app; right; now left | now apply ci_substring_contains].
  - intros (t & Hin & Hc). apply ci_substring_contains in Hc.
    destruct (first_match _ _) as [m|] eqn:E; [now exists m|].
    rewrite first_match_map_none in E. specialize (E t Hin). congruence.
Qed.

(** C1. [apply_filters_to_items] partitions the record list: the kept
    records together with the records of the rejected list are exactly the
    input records (as many times as each occurs), no record is in both,
    and with no filter the result is the input list and an empty rejected
    list. *)
Theorem apply_filters_partitions (F : list string) (R : list Item) :
  Permutation (fst (apply_filters_to_items lower F R)
               ++ map fst (snd (apply_filters_to_items lower F R))) R
  /\ (forall r, In r (fst (apply_filters_to_items lower F R)) ->
                ~ In r (map fst (snd (apply_filters_to_items lower F R))))
  /\ apply_filters_to_items lower [] R = (R, []).
Proof.
  rewrite apply_filters_eq. cbn [fst snd]. split; [apply partition_perm|]. split.
  - intros r Hk Hr. apply in_kept in Hk as [_ Hnone].
    apply in_map_iff in Hr as [[r' m] [Heq Hin]]. simpl in Heq; subst r'.
    apply in_rejected in Hin as [_ Hsome]. congruence.
  - reflexivity.
Qed.

(** C2. For a filter set of non-empty terms, a record is rejected exactly
    when some term is a case-insensitive substring of its title, and kept
    exactly when none is; the term reported with a rejected record is the
    first one in filter-set order that matches; a record whose title is
    empty or missing is kept. *)
Theorem rejected_iff_some_term_matches (F : list string) (R : list Item) :
  Forall (fun t => t <> "") F ->
  lower_keeps_empty lower ->
  (forall r, In r R ->
     (In r (map fst (snd (apply_filters_to_items lower F R))) <->
      exists t, In t F /\ ci_substring lower t (title_text r)))
  /\ (forall r, In r R ->
     (In r (fst (apply_filters_to_items lower F R)) <->
      ~ exists t, In t F /\ ci_substring lower t (title_text r)))
  /\ (forall r t, In (r, t) (snd (apply_filters_to_items lower F R)) ->
      exists pre post, F = pre ++ t :: post
        /\ ci_substring lower t (title_text r)
        /\ forall t', In t' pre -> ~ ci_substring lower t' (title_text r))
  /\ (forall r, In r R -> title r = None \/ title r = Some "" ->
      In r (fst (apply_filters_to_items lower F R))).
Proof.
  intros HF Hlow. rewrite apply_filters_eq. cbn [fst snd].
  assert (Hrej : forall r, In r R ->
     (In r (map fst (omap (rejection lower (active_filters lower F)) R)) <->
      exists t, In t F /\ ci_substring lower t (title_text r))).
  { intros r Hr. rewrite <- verdict_some_iff by exact HF. rewrite in_map_iff. split.
    - intros [[r' m] [Heq Hin]]. simpl in Heq; subst r'.
      apply in_rejected in Hin as [_ Hv]. now exists m.
    - intros [m Hv]. exists (r, m). split; [reflexivity|]. now apply in_rejected. }
  assert (Hkept : forall r, In r R ->
     (In r (List.filter (is_kept lower (active_filters lower F)) R) <->
      ~ exists t, In t F /\ ci_substring lower t (title_text r))).
  { intros r Hr. rewrite <- verdict_some_iff by exact HF. rewrite in_kept. split.
    - intros [_ Hv] [m Hm]. congruence.
    - intros Hno. split; [exact Hr|].
      destruct (verdict _ _ r) as [m|] eqn:E; [exfalso; apply Hno; now exists m | reflexivity]. }
  split; [exact Hrej|]. split; [exact Hkept|]. split.
  - intros r t Hin. apply in_rejected in Hin as [_ Hv].
    rewrite verdict_wf in Hv by exact HF.
    apply first_match_map in Hv as (pre & post & -> & Hc & Hpre).
    exists pre, post. split; [reflexivity|]. split; [now apply ci_substring_contains|].
    intros t' Hin' Hc'. apply ci_substring_contains in Hc'.
    rewrite List.Forall_forall in Hpre. specialize (Hpre t' Hin'). congruence.
  - intros r Hr Ht. apply Hkept; [exact Hr|]. intros (t & Hin & Hc).
    apply ci_substring_contains in Hc.
    assert (Htxt : title_text r = "") by (unfold title_text; destruct Ht as [-> | ->]; reflexivity).
    rewrite Htxt in Hc. rewrite (proj2 (Hlow "") eq_refl) in Hc.
    apply contains_empty_hay in Hc. apply (proj1 (Hlow t)) in Hc.
    rewrite List.Forall_forall in HF. exact (HF t Hin Hc).
Qed.

End FilterClaims.

Lemma ascii_lower_keeps_empty : lower_keeps_empty Str.lower.
Proof. intros [|c s]; simpl; split; congruence. Qed.

(** The specification's example: the title RAFFLE is rejected by the
    term raffle. *)
Example raffle_rejected :
  apply_filters_to_items Str.lower ["raffle"] [Demo.item "RAFFLE"]
  = ([], [(Demo.item "RAFFLE", "raffle")]).
Proof. reflexivity. Qed.

Example first_term_wins :
  apply_filters_to_items Str.lower ["gift"; ""; "Card"; "ift c"]
    [Demo.item "Coffee"; Demo.item "GIFT CARD"; mkItem None None None None None None;
     Demo.item "Trading cards"]
  = ([Demo.item "Coffee"; mkItem None None None None None None],
     [(Demo.item "GIFT CARD", "gift"); (Demo.item "Trading cards", "Card")]).
Proof. reflexivity. Qed.

Lemma rejected_iff_some_term_matches_witness :
  Forall (fun t => t <> "") ["raffle"; "gift"]
  /\ lower_keeps_empty Str.lower
  /\ (forall r, In r [Demo.item "RAFFLE"; Demo.item ""] ->
      title r = None \/ title r = Some "" ->
      In r (fst (apply_filters_to_items Str.lower ["raffle"; "gift"]
                   [Demo.item "RAFFLE"; Demo.item ""]))).
Proof.
  assert (HF : Forall (fun t : string => t <> "") ["raffle"; "gift"])
    by (repeat constructor; discriminate).
  split; [exact HF|]. split; [exact ascii_lower_keeps_empty|].
  exact (proj2 (proj2 (proj2
    (rejected_iff_some_term_matches Str.lower ["raffle"; "gift"]
       [Demo.item "RAFFLE"; Demo.item ""] HF ascii_lower_keeps_empty)))).
Defined.

(** ** The log buffer *)

Lemma append_capped_drop e l :
  length l <= MAX_LOGS ->
  append_capped e l = drop (length (l ++ [e]) - MAX_LOGS) (l ++ [e]).
Proof.
  intros Hl. unfold append_capped. rewrite length_app. cbn [length].
  destruct (Nat.ltb_spec MAX_LOGS (length l + 1)) as [Hlt | Hge].
  - replace (length l + 1 - MAX_LOGS) with 1 by lia. reflexivity.
  - replace (length l + 1 - MAX_LOGS) with 0 by lia. reflexivity.
Qed.

Lemma append_capped_length e l :
  length l <= MAX_LOGS -> length (append_capped e l) <= MAX_LOGS.
Proof.
  intros Hl. rewrite append_capped_drop by exact Hl.
  rewrite length_drop, length_app. cbn [length]. lia.
Qed.

(** Appending one by one under the cap keeps the newest [MAX_LOGS]. *)
Lemma fold_append_capped es : forall l,
  length l <= MAX_LOGS ->
  foldl (fun l e => append_capped e l) l es
  = drop (length (l ++ es) - MAX_LOGS) (l ++ es).
Proof.
  induction es as [|e es IH]; intros l Hl; cbn [foldl].
  - rewrite app_nil_r. replace (length l - MAX_LOGS) with 0 by lia. reflexivity.
  - rewrite IH by (apply append_capped_length; exact Hl).
    rewrite append_capped_drop by exact Hl.
    set (X := l ++ [e]). set (d := length X - MAX_LOGS).
    assert (HX : length X = length l + 1) by (unfold X; rewrite length_app; reflexivity).
    assert (Hd : d <= length X) by (unfold d; lia).
    replace (l ++ e :: es) with (X ++ es) by (unfold X; now rewrite <- app_assoc).
    rewrite <- (drop_app_le X es d) by exact Hd.
    rewrite drop_drop. f_equal.
    rewrite length_drop, !length_app. unfold d. lia.
Qed.

Section LogFacts.
Context {lib : PyLib}.

Lemma publish_event_log ty data st :
  log_entries (publish_event ty data st) = log_entries st.
Proof. reflexivity. Qed.

Lemma add_log_entries m st :
  log_entries (add_log m st)
  = append_capped (mkLogEntry (strftime (now (clock_reads st))) m) (log_entries st).
Proof. reflexivity. Qed.

Lemma add_log_clock m st : clock_reads (add_log m st) = S (clock_reads st).
Proof. reflexivity. Qed.

Lemma add_logs_entries msgs : forall st,
  log_entries (add_logs msgs st)
  = foldl (fun l e => append_capped e l) (log_entries st)
          (stamp_from (clock_reads st) msgs).
Proof.
  unfold add_logs. induction msgs as [|m ms IH]; intros st; cbn [foldl stamp_from].
  - reflexivity.
  - rewrite IH, add_log_entries, add_log_clock. reflexivity.
Qed.

Lemma stamp_from_length msgs : forall n, length (stamp_from n msgs) = length msgs.
Proof. induction msgs; intros n; simpl; auto. Qed.

(** C3. A log buffer within the cap stays within [MAX_LOGS] after any
    sequence of [add_log] calls and holds the newest entries in the order
    they were appended; after [MAX_LOGS + k] appends to an empty buffer it
    holds exactly the last [MAX_LOGS] entries, the first [k] having been
    evicted. *)
Theorem log_buffer_capped_fifo (st : Shared) (msgs : list string) :
  length (log_entries st) <= MAX_LOGS ->
  length (log_entries (add_logs msgs st)) <= MAX_LOGS
  /\ log_entries (add_logs msgs st)
     = drop (length (log_entries st) + length msgs - MAX_LOGS)
            (log_entries st ++ stamp_from (clock_reads st) msgs)
  /\ (log_entries st = [] ->
      forall k, length msgs = MAX_LOGS + k ->
      log_entries (add_logs msgs st) = drop k (stamp_from (clock_reads st) msgs)
      /\ length (log_entries (add_logs msgs st)) = MAX_LOGS).
Proof.
  intros Hl.
  assert (Heq : log_entries (add_logs msgs st)
     = drop (length (log_entries st) + length msgs - MAX_LOGS)
            (log_entries st ++ stamp_from (clock_reads st) msgs)).
  { rewrite add_logs_entries, fold_append_capped by exact Hl.
    now rewrite length_app, stamp_from_length. }
  split; [|split; [exact Heq|]].
  - rewrite Heq, length_drop, length_app, stamp_from_length. lia.
  - intros Hnil k Hk. rewrite Heq, Hnil. cbn [length app].
    replace (0 + length msgs - MAX_LOGS) with k by lia.
    split; [reflexivity|]. rewrite length_drop, stamp_from_length. lia.
Qed.

End LogFacts.

Lemma log_buffer_capped_fifo_witness :
  length (log_entries initial) <= MAX_LOGS
  /\ length (log_entries (add_logs (lib := Demo.lib) (repeat "m" 203) initial)) <= MAX_LOGS.
Proof.
  assert (H : length (log_entries initial) <= MAX_LOGS) by (vm_compute; lia).
  split; [exact H|].
  exact (proj1 (log_buffer_capped_fifo (lib := Demo.lib) initial (repeat "m" 203) H)).
Defined.

(** With a cap of 200, the 203 entries logged at clock readings 0 to 202
    leave those of readings 3 to 202. *)
Example log_evicts_oldest :
  map timestamp (take 2 (log_entries (add_logs (lib := Demo.lib) (repeat "m" 203) initial)))
  = ["2024-01-01 00:00:03 UTC"; "2024-01-01 00:00:04 UTC"].
Proof. vm_compute. reflexivity. Qed.

(** ** The total display *)

Lemma parse_total_nonempty t :
  t <> "" ->
  parse_total (Some t) = PyFloat.of_string (remove_char "," (remove_char "$" t)).
Proof. intros Ht. unfold parse_total. apply truthy_nonempty in Ht. now rewrite Ht. Qed.

(** C4, as the code has it.  A failed totals fetch is logged and yields
    [None]; the total is then taken as [0.0], and the display is the manual
    adjustment alone in the numeric currency format. *)
Theorem failed_totals_display_is_adjustment `{PyLib} (e : string) (st : Shared)
    (adj : PyFloat.float) :
  fst (get_total_raised (TotalsRaise e) st) = None
  /\ total_raised_display None adj = numeric_display (PyFloat.add PyFloat.zero adj).
Proof. split; reflexivity. Qed.

(** C4 fails as stated: with the totals fetch failing and an adjustment of
    5.0, the cycle writes the numeric total $5.00, not the fallback string. *)
Lemma failed_totals_display_is_numeric :
  Demo.written (run_cycle (lib := Demo.lib) (mkEnv Demo.no_web (TotalsRaise "timed out") None)
             (set_adjustment (lib := Demo.lib) (Demo.flt "5.0") initial))
  = Some "$5.00"
  /\ total_raised_display None (Demo.flt "5.0") = "$5.00"
  /\ total_raised_display None (Demo.flt "5.0") <> fallback_display None (Demo.flt "5.0").
Proof. vm_compute. repeat split; discriminate. Qed.

(** C5, as the code has it.  For a fetched total that is not the empty
    string: when it parses as a number once [$] and [,] are removed, the
    display is that number plus the adjustment in the currency format with
    two decimals; when it does not, the display is the fetched text followed
    by the signed adjustment in brackets.  The empty string is not parsed:
    it counts as [0.0].  $100.00 with 12.5 gives $112.50, and TBD with 5.0
    gives a string made of TBD and +5.00. *)
Theorem total_display_of_fetched_text (t : string) (adj : PyFloat.float) :
  t <> "" ->
  (forall v, PyFloat.of_string (remove_char "," (remove_char "$" t)) = Some v ->
     total_raised_display (Some t) adj
     = "$" +:+ PyFloat.format_2f false true (PyFloat.add v adj))
  /\ (PyFloat.of_string (remove_char "," (remove_char "$" t)) = None ->
     total_raised_display (Some t) adj
     = t +:+ " (+" +:+ PyFloat.format_2f true false adj +:+ ")")
  /\ total_raised_display (Some "") adj
     = "$" +:+ PyFloat.format_2f false true (PyFloat.add PyFloat.zero adj)
  /\ total_raised_display (Some "$100.00") (Demo.flt "12.5") = "$112.50"
  /\ total_raised_display (Some "TBD") (Demo.flt "5.0") = "TBD (+" +:+ "+5.00" +:+ ")".
Proof.
  intros Ht. unfold total_raised_display. rewrite parse_total_nonempty by exact Ht.
  split; [intros v ->; reflexivity|].
  split; [intros ->; reflexivity|].
  split; [reflexivity|]. split; vm_compute; reflexivity.
Qed.

Lemma total_display_of_fetched_text_witness :
  "TBD" <> ""
  /\ total_raised_display (Some "TBD") (Demo.flt "5.0")
     = "TBD" +:+ " (+" +:+ PyFloat.format_2f true false (Demo.flt "5.0") +:+ ")".
Proof.
  assert (Ht : "TBD" <> "") by discriminate.
  split; [exact Ht|].
  apply (proj1 (proj2 (total_display_of_fetched_text "TBD" (Demo.flt "5.0") Ht))).
  vm_compute. reflexivity.
Defined.

(** C5 fails as stated on the empty string: it does not parse as a number,
    yet with an adjustment of 5.0 the display is the numeric $5.00 and not
    the fallback string. *)
Lemma empty_total_is_not_fallback :
  PyFloat.of_string (remove_char "," (remove_char "$" "")) = None
  /\ total_raised_display (Some "") (Demo.flt "5.0") = "$5.00"
  /\ total_raised_display (Some "") (Demo.flt "5.0")
     <> fallback_display (Some "") (Demo.flt "5.0").
Proof. vm_compute. repeat split; discriminate. Qed.

(** The specification's round trip: an adjustment of 12.5 set through the
    handler, then a cycle that fetches $100.00. *)
Example adjustment_round_trip :
  Demo.written (run_cycle (lib := Demo.lib) (mkEnv Demo.no_web (TotalsPage (Some "$100.00")) None)
             (set_adjustment (lib := Demo.lib) (Demo.flt "12.5") initial))
  = Some "$112.50".
Proof. vm_compute. reflexivity. Qed.

Example display_examples :
  map (fun t => total_raised_display (Some t) (Demo.flt "-0.25"))
      ["$1,234,567.891"; "1e3"; " 12 "; "n/a"; "-$5"; "inf"]
  = ["$1,234,567.64"; "$999.75"; "$11.75"; "n/a (+-0.25)"; "$-5.25"; "$inf"].
Proof. vm_compute. reflexivity. Qed.

(** ** The pagination walker *)

Lemma unseen_shrinks (D seen : gset string) (u : string) :
  u ∈ D -> u ∉ seen -> D ∖ ({[u]} ∪ seen) ⊂ D ∖ seen.
Proof.
  intros HD Hs. split.
  - intros x Hx. apply elem_of_difference in Hx as [Hx1 Hx2].
    apply elem_of_difference. split; [exact Hx1|].
    intros Hx3. apply Hx2. now apply elem_of_union_r.
  - intros Hsub. specialize (Hsub u).
    rewrite !elem_of_difference in Hsub. destruct Hsub as [_ Hu]; [now split|].
    apply Hu. apply elem_of_union_l. now apply elem_of_singleton.
Qed.

Section WalkFacts.
Context {lib : PyLib}.

(** The pages not yet seen bound the turns the loop can still take. *)
Lemma walk_returns web cb : forall fuel next seen acc,
  size (dom (pages web) ∖ seen) < fuel ->
  exists r, walk fuel web cb next seen acc = Some r.
Proof.
  induction fuel as [|fuel IH]; intros next seen acc Hsz; [lia|].
  destruct next as [u|]; cbn [walk]; [|eauto].
  destruct (keep_walking (Some u) seen) eqn:Hk; [|eauto].
  destruct (pages web !! u) as [page|] eqn:Hu; [|eauto].
  destruct (next_page u page) as [nu|e]; [|eauto].
  apply IH.
  unfold keep_walking in Hk. apply andb_true_iff in Hk as [_ Hns].
  apply bool_decide_eq_true in Hns.
  assert (Hsub : dom (pages web) ∖ ({[u]} ∪ seen) ⊂ dom (pages web) ∖ seen).
  { apply unseen_shrinks; [apply elem_of_dom; eauto | exact Hns]. }
  apply subset_size in Hsub. lia.
Qed.

(** More fuel does not change how the loop ends. *)
Lemma walk_fuel_mono web cb : forall fuel fuel' next seen acc r,
  walk fuel web cb next seen acc = Some r ->
  fuel <= fuel' ->
  walk fuel' web cb next seen acc = Some r.
Proof.
  induction fuel as [|fuel IH]; intros fuel' next seen acc r Hw Hle.
  - destruct next as [u|]; cbn [walk] in *.
    + destruct (keep_walking (Some u) seen) eqn:Hk; [discriminate|].
      destruct fuel'; cbn [walk]; rewrite Hk; exact Hw.
    + destruct fuel'; exact Hw.
  - destruct fuel' as [|fuel']; [lia|].
    destruct next as [u|]; cbn [walk] in *; [|exact Hw].
    destruct (keep_walking (Some u) seen); [|exact Hw].
    destruct (pages web !! u); [|exact Hw].
    destruct (next_page u p); [|exact Hw].
    apply (IH fuel'); [exact Hw | lia].
Qed.

(** Every URL fetched so far is in [seen_pages], and the next one is
    fetched only if it is not: no URL is fetched twice. *)
Lemma walk_fetched_nodup web cb : forall fuel next seen acc r,
  walk fuel web cb next seen acc = Some r ->
  NoDup (w_fetched acc) ->
  (forall x, x ∈ w_fetched acc -> x ∈ seen) ->
  NoDup (w_fetched (walk_of r)).
Proof.
  induction fuel as [|fuel IH]; intros next seen acc r Hw Hnd Hseen.
  - destruct next as [u|]; cbn [walk] in Hw.
    + destruct (keep_walking (Some u) seen); [discriminate | now inversion Hw; subst].
    + now inversion Hw; subst.
  - destruct next as [u|]; cbn [walk] in Hw; [|now inversion Hw; subst].
    destruct (keep_walking (Some u) seen) eqn:Hk; [|now inversion Hw; subst].
    unfold keep_walking in Hk. apply andb_true_iff in Hk as [_ Hns].
    apply bool_decide_eq_true in Hns.
    assert (Hnd' : NoDup (w_fetched acc ++ [u])).
    { apply NoDup_app. split; [exact Hnd|]. split; [|apply NoDup_singleton].
      intros x Hx Hxu. apply list_elem_of_singleton in Hxu; subst x. auto. }
    destruct (pages web !! u) as [page|].
    + destruct (next_page u page) as [nu|e]; [|inversion Hw; subst; exact Hnd'].
      eapply IH; [exact Hw | exact Hnd' |]. cbn [w_fetched].
      intros x Hx. apply elem_of_app in Hx as [Hx | Hx].
      * apply elem_of_union_r. auto.
      * apply list_elem_of_singleton in Hx; subst x. apply elem_of_union_l.
        now apply elem_of_singleton.
    + inversion Hw; subst. exact Hnd'.
Qed.

(** Every URL fetched but the last one has a page. *)
Lemma walk_fetched_length web cb : forall fuel next seen acc r,
  walk fuel web cb next seen acc = Some r ->
  length (w_fetched (walk_of r))
  <= length (w_fetched acc) + S (size (dom (pages web) ∖ seen)).
Proof.
  induction fuel as [|fuel IH]; intros next seen acc r Hw.
  - destruct next as [u|]; cbn [walk] in Hw.
    + destruct (keep_walking (Some u) seen); [discriminate|].
      inversion Hw; subst. cbn [walk_of]. lia.
    + inversion Hw; subst. cbn [walk_of]. lia.
  - destruct next as [u|]; cbn [walk] in Hw; [|inversion Hw; subst; cbn [walk_of]; lia].
    destruct (keep_walking (Some u) seen) eqn:Hk; [|inversion Hw; subst; cbn [walk_of]; lia].
    unfold keep_walking in Hk. apply andb_true_iff in Hk as [_ Hns].
    apply bool_decide_eq_true in Hns.
    destruct (pages web !! u) as [page|] eqn:Hu.
    + destruct (next_page u page) as [nu|e].
      * apply IH in Hw. cbn [w_fetched] in Hw. rewrite length_app in Hw. cbn [length] in Hw.
        assert (Hsub : dom (pages web) ∖ ({[u]} ∪ seen) ⊂ dom (pages web) ∖ seen).
        { apply unseen_shrinks; [apply elem_of_dom; eauto | exact Hns]. }
        apply subset_size in Hsub. lia.
      * inversion Hw; subst. cbn [walk_of w_fetched]. rewrite length_app. cbn [length]. lia.
    + inversion Hw; subst. cbn [walk_of w_fetched]. rewrite length_app. cbn [length]. lia.
Qed.

Lemma unseen_all web : size (dom (pages web) ∖ (∅ : gset string)) = size (pages web).
Proof. rewrite difference_empty_L. apply size_dom. Qed.

Lemma fetch_walk_of web url cb r0 :
  walk (S (size (pages web))) web cb (Some url) ∅ (mkWalk [] [] []) = Some r0 ->
  exists r, fetch_auction_items web url cb = Some r
    /\ w_fetched (walk_of r) = w_fetched (walk_of r0)
    /\ w_items (walk_of r) = w_items (walk_of r0).
Proof.
  intros Hw. unfold fetch_auction_items. rewrite Hw.
  destruct r0 as [w|e w]; eexists; (split; [reflexivity|]); split; reflexivity.
Qed.

(** When [urljoin] refuses no link of the site, no exception leaves the
    walk. *)
Lemma walk_well_formed_returns web cb :
  links_well_formed web ->
  forall fuel next seen acc r,
  walk fuel web cb next seen acc = Some r -> exists w, r = Returned w.
Proof.
  intros Hwf. induction fuel as [|fuel IH]; intros next seen acc r Hw.
  - destruct next as [u|]; cbn [walk] in Hw.
    + destruct (keep_walking (Some u) seen); [discriminate | inversion Hw; eauto].
    + inversion Hw; eauto.
  - destruct next as [u|]; cbn [walk] in Hw; [|inversion Hw; eauto].
    destruct (keep_walking (Some u) seen); [|inversion Hw; eauto].
    destruct (pages web !! u) as [page|] eqn:Hu; [|inversion Hw; eauto].
    destruct (next_page u page) as [nu|e] eqn:Hn; [eapply IH; exact Hw|].
    exfalso. exact (Hwf u page e Hu Hn).
Qed.

(** C10. [fetch_auction_items] comes to an end for every finite set of
    pages and every start URL, whatever the next-page links are (cycles and
    links back included): it returns, or the exception of a [urljoin] that
    refuses a link leaves it, and it returns when [urljoin] refuses no link
    of the site; it fetches no URL twice, so it makes at most one fetch per
    page and one more; and fuel beyond the number of pages plus one leaves
    the loop's result unchanged. *)
Theorem fetch_auction_items_terminates (web : Web) (url : string) (progress_cb : bool) :
  exists r, fetch_auction_items web url progress_cb = Some r
    /\ NoDup (w_fetched (walk_of r))
    /\ length (w_fetched (walk_of r)) <= S (size (pages web))
    /\ (forall fuel, S (size (pages web)) <= fuel ->
         walk fuel web progress_cb (Some url) ∅ (mkWalk [] [] [])
         = walk (S (size (pages web))) web progress_cb (Some url) ∅ (mkWalk [] [] []))
    /\ (links_well_formed web -> exists w, r = Returned w).
Proof.
  destruct (walk_returns web progress_cb (S (size (pages web))) (Some url) ∅ (mkWalk [] [] []))
    as [r0 Hw]; [rewrite unseen_all; lia|].
  destruct (fetch_walk_of web url progress_cb r0 Hw) as (r & Hr & Hf & _).
  exists r. split; [exact Hr|]. rewrite Hf. split; [|split; [|split]].
  - eapply walk_fetched_nodup; [exact Hw | apply NoDup_nil_2 |].
    cbn [w_fetched]. intros x Hx. inversion Hx.
  - apply walk_fetched_length in Hw. cbn [w_fetched length] in Hw.
    rewrite unseen_all in Hw. lia.
  - intros fuel Hle. rewrite Hw. eapply walk_fuel_mono; [exact Hw | exact Hle].
  - intros Hwf. destruct (walk_well_formed_returns web progress_cb Hwf _ _ _ _ _ Hw) as [w0 ->].
    unfold fetch_auction_items in Hr. rewrite Hw in Hr. inversion Hr. eauto.
Qed.

End WalkFacts.

(** Two pages that link to each other, the first also through a third
    link; the walk fetches each once and stops. *)
Example walk_stops_on_a_cycle :
  let web := mkWeb (<["http://a/1" := mkPage [Demo.item "Lamp"] (Some "http://a/2")]>
                   (<["http://a/2" := mkPage [Demo.item "Vase"] (Some "http://a/1")]> ∅))
                   (fun _ => "404") in
  fetch_auction_items (H := Demo.lib) web "http://a/1" false
  = Some (Returned (mkWalk [Demo.item "Lamp"; Demo.item "Vase"] []
                           ["http://a/1"; "http://a/2"])).
Proof. vm_compute. reflexivity. Qed.

(** A next-page link that [urljoin] rejects: the exception leaves the walk
    with the first page's item collected. *)
Example walk_raises_on_a_bad_link :
  let web := mkWeb (<["http://a/1" := mkPage [Demo.item "Lamp"] (Some "http://[bad")]> ∅)
                   (fun _ => "404") in
  fetch_auction_items (H := Demo.lib) web "http://a/1" false
  = Some (WalkRaised "Invalid IPv6 URL"
            (mkWalk [Demo.item "Lamp"] [] ["http://a/1"])).
Proof. vm_compute. reflexivity. Qed.

(** ** EventBus *)

Lemma unbounded_never_full q : maxsize q = 0%Z -> Queue_full q = false.
Proof. intros Hq. unfold Queue_full. now rewrite Hq. Qed.

Lemma deliver_unbounded payload q :
  maxsize q = 0%Z -> deliver payload q = mkQueue 0 (pending q ++ [payload]).
Proof.
  intros Hq. unfold deliver, Queue_put. rewrite unbounded_never_full by exact Hq.
  now rewrite Hq.
Qed.

(** What [publish_event] does to one subscriber depends on that
    subscriber's own channel only. *)
Lemma publish_event_lookup ty data st h :
  event_subscribers (publish_event ty data st) !! h
  = deliver (mkPayload ty data) <$> (event_subscribers st !! h).
Proof. unfold publish_event. cbn [event_subscribers set_event_subscribers]. apply lookup_fmap. Qed.

Lemma subscribe_events_fresh st :
  event_subscribers st !! fst (subscribe_events st) = None.
Proof.
  cbn [subscribe_events fst]. apply not_elem_of_dom. apply is_fresh.
Qed.

Lemma publish_many_length ty data h : forall n st q,
  event_subscribers st !! h = Some q -> maxsize q = 0%Z ->
  exists q', event_subscribers (Nat.iter n (publish_event ty data) st) !! h = Some q'
    /\ maxsize q' = 0%Z /\ length (pending q') = length (pending q) + n.
Proof.
  induction n as [|n IH]; intros st q Hq Hm.
  - exists q. cbn. repeat split; auto.
  - rewrite Nat.iter_succ. destruct (IH st q Hq Hm) as (q' & Hq' & Hm' & Hl').
    exists (mkQueue 0 (pending q' ++ [mkPayload ty data])).
    rewrite publish_event_lookup, Hq'. cbn [fmap option_fmap option_map].
    rewrite deliver_unbounded by exact Hm'. cbn [maxsize pending].
    rewrite length_app. cbn [length]. repeat split; auto. lia.
Qed.

(** C9, as the code has it.  [subscribe_events] registers a new channel of
    its own, made by [Queue()] and so without a capacity bound, and leaves
    the other subscribers as they are; [publish_event] appends the event to
    the channel of every registered subscriber, drops it for none, and
    registers or removes nobody. *)
Theorem publish_reaches_every_subscriber (st : Shared) (ty : string) (data : EventData) :
  all_unbounded st ->
  event_subscribers st !! fst (subscribe_events st) = None
  /\ event_subscribers (snd (subscribe_events st)) !! fst (subscribe_events st)
     = Some (mkQueue 0 [])
  /\ (forall h, h <> fst (subscribe_events st) ->
      event_subscribers (snd (subscribe_events st)) !! h = event_subscribers st !! h)
  /\ all_unbounded (snd (subscribe_events st))
  /\ (forall h q, event_subscribers st !! h = Some q ->
      event_subscribers (publish_event ty data st) !! h
      = Some (mkQueue 0 (pending q ++ [mkPayload ty data])))
  /\ (forall h, event_subscribers st !! h = None ->
      event_subscribers (publish_event ty data st) !! h = None)
  /\ all_unbounded (publish_event ty data st).
Proof.
  intros Hinv.
  split; [apply subscribe_events_fresh|].
  split; [cbn [subscribe_events fst snd event_subscribers set_event_subscribers];
          apply lookup_insert_eq|].
  split.
  { intros h Hne. cbn [subscribe_events fst snd event_subscribers set_event_subscribers] in *.
    now apply lookup_insert_ne. }
  split.
  { intros h q. cbn [subscribe_events fst snd event_subscribers set_event_subscribers].
    rewrite lookup_insert. case_decide.
    - intros [= <-]. reflexivity.
    - apply Hinv. }
  split.
  { intros h q Hq. rewrite publish_event_lookup, Hq. cbn [fmap option_fmap option_map].
    f_equal. apply deliver_unbounded. exact (Hinv h q Hq). }
  split.
  { intros h Hq. now rewrite publish_event_lookup, Hq. }
  intros h q'. rewrite publish_event_lookup.
  destruct (event_subscribers st !! h) as [q|] eqn:Hq; [|discriminate].
  cbn [fmap option_fmap option_map]. intros [= <-].
  rewrite deliver_unbounded by exact (Hinv h q Hq). reflexivity.
Qed.

Lemma initial_all_unbounded : all_unbounded initial.
Proof. intros h q Hq. cbn [initial event_subscribers] in Hq. now rewrite lookup_empty in Hq. Qed.

Lemma publish_reaches_every_subscriber_witness :
  all_unbounded initial
  /\ event_subscribers (snd (subscribe_events initial)) !! fst (subscribe_events initial)
     = Some (mkQueue 0 []).
Proof.
  split; [exact initial_all_unbounded|].
  exact (proj1 (proj2 (publish_reaches_every_subscriber initial "log"
    (DataLog (mkLogEntry "" "")) initial_all_unbounded))).
Defined.

(** C9 fails as stated: the channel of a subscriber has no capacity.
    Whatever bound is proposed, publishing one event more than the bound
    leaves that many events pending in the channel; none has been
    dropped. *)
Lemma subscriber_channel_has_no_bound :
  ~ exists cap : nat, forall n : nat,
      match event_subscribers
              (Nat.iter n (publish_event "log" (DataLog (mkLogEntry "" "m")))
                 (snd (subscribe_events initial)))
            !! fst (subscribe_events initial) with
      | Some q => length (pending q) <= cap
      | None => True
      end.
Proof.
  intros [cap Hcap]. specialize (Hcap (S cap)).
  destruct (publish_many_length "log" (DataLog (mkLogEntry "" "m"))
              (fst (subscribe_events initial)) (S cap)
              (snd (subscribe_events initial)) (mkQueue 0 []))
    as (q' & Hq' & _ & Hl').
  - cbn [subscribe_events fst snd event_subscribers set_event_subscribers].
    apply lookup_insert_eq.
  - reflexivity.
  - rewrite Hq' in Hcap. cbn [pending length] in Hl'. lia.
Qed.

(** The drop-on-full branch of [publish_event] works for a bounded queue,
    were one ever registered: the full queue keeps what it has and the
    other subscriber still gets the event. *)
Example full_queue_drops_for_itself_only :
  let p := mkPayload "log" (DataLog (mkLogEntry "" "m")) in
  let subs : gmap nat Queue := <[0 := mkQueue 1 [p]]> (<[1 := mkQueue 0 [p]]> ∅) in
  let st := publish_event "log" (DataLog (mkLogEntry "" "m"))
              (set_event_subscribers subs initial) in
  (length ∘ pending <$> event_subscribers st !! 0,
   length ∘ pending <$> event_subscribers st !! 1) = (Some 1, Some 2).
Proof. vm_compute. reflexivity. Qed.

(** ** One scrape cycle *)

Section CycleFacts.
Context {lib : PyLib}.


(** On a site whose links are well formed the walk returns. *)
Lemma fetch_returns web url cb :
  links_well_formed web -> exists w, fetch_auction_items web url cb = Some (Returned w).
Proof.
  intros Hwf.
  destruct (walk_returns web cb (S (size (pages web))) (Some url) ∅ (mkWalk [] [] []))
    as [r0 Hw]; [rewrite unseen_all; lia|].
  destruct (walk_well_formed_returns web cb Hwf _ _ _ _ _ Hw) as [w ->].
  unfold fetch_auction_items. rewrite Hw. eauto.
Qed.

(** When the walk returns and the artifact is written, the cycle
    completes, whatever the page fetches and the totals fetch do. *)
Lemma run_cycle_completes web totals st w :
  fetch_auction_items web URL true = Some (Returned w) ->
  exists st' out, run_cycle (mkEnv web totals None) st = Completed st' out.
Proof.
  intros Hw. unfold run_cycle. cbn [env_web env_totals env_write_error read_clock].
  rewrite Hw.
  destruct (apply_filters_to_items _ _ _) as [kept out].
  destruct (get_total_raised _ _) as [tot st1].
  cbn [read_clock update_status]. eauto.
Qed.




End CycleFacts.

Lemma no_web_well_formed : links_well_formed (H := Demo.lib) Demo.no_web.
Proof. intros u p e Hp. cbn in Hp. rewrite lookup_empty in Hp. discriminate. Qed.

(** A next-page link that [urljoin] refuses: the exception leaves the
    cycle, and with it [main], though nothing is wrong with the write. *)
Example bad_link_crashes_main :
  option_map (fun r => pc (snd r))
    (sched_step (lib := Demo.lib)
       (mkEnv (mkWeb (<[URL := mkPage [Demo.item "Lamp"] (Some "http://[bad")]> ∅)
                     (fun _ => "404 Client Error"))
              (TotalsPage (Some "$100.00")) None)
       (mkSys Cycle initial))
  = Some (Crashed "Invalid IPv6 URL").
Proof. vm_compute. reflexivity. Qed.

(** A cycle on a site where every fetch fails, the totals fetch too: both
    failures are logged and the cycle completes with no item and the
    adjustment as total. *)
Example failed_fetches_are_logged :
  match run_cycle (lib := Demo.lib) (mkEnv Demo.no_web (TotalsRaise "timed out") None) initial with
  | Completed st out =>
      (map message (take 4 (log_entries st)), total_items out, total_raised out)
  | _ => ([], 0, "")
  end
  = (["🚀 Beginning scrape cycle";
      "❌ Error fetching " +:+ URL +:+ ": 404 Client Error";
      "🔍 Scrape collected 0 items";
      "❌ Error fetching total raised: timed out"], 0, "$0.00").
Proof. vm_compute. reflexivity. Qed.

(** The failing input of C6: the site and the totals page answer, and
    opening the artifact file raises. *)
Example write_failure_crashes_main :
  option_map (fun r => pc (snd r))
    (sched_step (lib := Demo.lib)
       (mkEnv Demo.no_web (TotalsPage (Some "$100.00"))
              (Some "PermissionError: [Errno 13] Permission denied: 'auction_items.json'"))
       (mkSys Cycle initial))
  = Some (Crashed "PermissionError: [Errno 13] Permission denied: 'auction_items.json'").
Proof. vm_compute. reflexivity. Qed.

(** ** Scheduler *)

Section SchedulerFacts.
Context {lib : PyLib}.

Lemma add_log_flags m st : flags (add_log m st) = flags st.
Proof. reflexivity. Qed.

Lemma add_logs_flags msgs : forall st, flags (add_logs msgs st) = flags st.
Proof.
  unfold add_logs. induction msgs as [|m ms IH]; intros st; cbn [foldl]; [reflexivity|].
  now rewrite IH, add_log_flags.
Qed.

Lemma update_status_flags kw st : flags (snd (update_status kw st)) = flags st.
Proof. unfold update_status. destruct (kw_empty kw); reflexivity. Qed.

Lemma get_total_raised_flags resp st : flags (snd (get_total_raised resp st)) = flags st.
Proof. destruct resp; reflexivity. Qed.

(** A cycle neither reads nor writes the pause and trigger flags. *)
Lemma run_cycle_flags env st :
  match run_cycle env st with
  | Completed st' _ | Raised _ st' => flags st' = flags st
  | Unfinished => True
  end.
Proof.
  unfold run_cycle. cbn [read_clock].
  destruct (fetch_auction_items _ _ _) as [[w|e w]|]; [| |exact I].
  2: { now rewrite add_logs_flags. }
  destruct (apply_filters_to_items _ _ _) as [kept out].
  pose proof (get_total_raised_flags (env_totals env)) as Htot.
  destruct out as [|o out];
    (destruct (get_total_raised (env_totals env) _) as [tot st1] eqn:Eg;
     match type of Eg with get_total_raised _ ?x = _ => specialize (Htot x) end;
     rewrite Eg in Htot; cbn [snd] in Htot;
     rewrite ?add_log_flags, ?add_logs_flags in Htot;
     destruct (env_write_error env); cbn [read_clock update_status]; exact Htot).
Qed.

End SchedulerFacts.

Lemma count_label_cons P l ls :
  count_label P (l :: ls) = b2n (P l) + count_label P ls.
Proof. unfold count_label. cbn [List.filter]. destruct (P l); reflexivity. Qed.

Lemma count_label_app P ls ls' :
  count_label P (ls ++ ls') = count_label P ls + count_label P ls'.
Proof. unfold count_label. now rewrite List.filter_app, length_app. Qed.

Section SchedulerSteps.
Context {lib : PyLib}.

Lemma run_atom_paused a st :
  refresh_paused (run_atom a st)
  = match a with ASetPaused b => b | _ => refresh_paused st end.
Proof.
  destruct a; try reflexivity.
  cbn [run_atom]. exact (f_equal fst (update_status_flags kw st)).
Qed.

Lemma run_atom_now a st :
  refresh_now (run_atom a st)
  = match a with ASetNow => true | _ => refresh_now st end.
Proof.
  destruct a; try reflexivity.
  cbn [run_atom]. exact (f_equal snd (update_status_flags kw st)).
Qed.

(** The scheduler never writes the pause flag, and clears the trigger
    flag exactly in the steps labelled [LConsume], where it was set. *)
Lemma sched_step_flags env s l s' :
  sched_step env s = Some (l, s') ->
  refresh_paused (shared s') = refresh_paused (shared s)
  /\ (if is_consume l
      then refresh_now (shared s) = true /\ refresh_now (shared s') = false
      else refresh_now (shared s') = refresh_now (shared s)).
Proof.
  destruct s as [p st]. unfold sched_step. cbn [pc shared].
  destruct p; try (intros [= <- <-]; cbn; auto; fail);
    try (destruct (refresh_now st) eqn:E; intros [= <- <-]; cbn; auto; fail).
  - pose proof (run_cycle_flags env st) as Hf.
    destruct (run_cycle env st) as [st1 out|e st1|]; try discriminate;
      intros [= <- <-]; cbn [shared is_consume];
      unfold flags in Hf; inversion Hf; auto.
Qed.

(** The scheduler starts a cycle from [Run] only. *)
Lemma sched_step_start env s l s' :
  sched_step env s = Some (l, s') -> is_start l = true -> pc s = Run.
Proof.
  destruct s as [p st]. unfold sched_step. cbn [pc shared].
  destruct p; try (intros [= <- <-]; cbn; congruence);
    try (destruct (refresh_now st); intros [= <- <-]; cbn; congruence).
  - destruct (run_cycle env st); try discriminate; intros [= <- <-]; cbn; congruence.
Qed.





(** While the flag is set, a scheduler on the pause side stays there. *)
Lemma step_pause_side s l s' :
  step s l s' ->
  refresh_paused (shared s) = true -> pause_side (pc s) = true ->
  is_unpause l = false ->
  is_start l = false /\ refresh_paused (shared s') = true /\ pause_side (pc s') = true.
Proof.
  intros Hstep Hp Hside Hun. destruct Hstep as [env s l s' Hs | a s].
  - pose proof (sched_step_flags _ _ _ _ Hs) as [Hp' _]. rewrite Hp in Hp'.
    destruct s as [p st]. cbn [pc shared] in *. unfold sched_step in Hs. cbn [pc shared] in Hs.
    rewrite Hp in Hs.
    destruct p; try discriminate; inversion Hs; subst; cbn; auto.
  - cbn [pc shared is_start]. rewrite run_atom_paused.
    destruct a as [[|]| | | |]; cbn in *; auto; discriminate.
Qed.

Lemma exec_pause_side s ls s' :
  exec s ls s' ->
  refresh_paused (shared s) = true -> pause_side (pc s) = true ->
  count_label is_unpause ls = 0 ->
  count_label is_start ls = 0
  /\ refresh_paused (shared s') = true /\ pause_side (pc s') = true.
Proof.
  induction 1 as [s | s l s1 ls s2 Hstep _ IH]; intros Hp Hside Hun.
  - auto.
  - rewrite count_label_cons in Hun.
    assert (Hl : is_unpause l = false) by (destruct (is_unpause l); [cbn in Hun; lia | reflexivity]).
    rewrite Hl in Hun. cbn in Hun.
    destruct (step_pause_side _ _ _ Hstep Hp Hside Hl) as (Hst & Hp1 & Hside1).
    destruct (IH Hp1 Hside1 Hun) as (Hc & Hp2 & Hside2).
    rewrite count_label_cons, Hst. cbn. auto.
Qed.

Lemma exec_app s ls s1 ls' s2 :
  exec s ls s1 -> exec s1 ls' s2 -> exec s (ls ++ ls') s2.
Proof.
  induction 1 as [s | s l sa ls sb Hstep _ IH]; intros H2; cbn [app]; [exact H2|].
  econstructor; [exact Hstep | exact (IH H2)].
Qed.

Lemma sched_run_exec env : forall n s ls s',
  sched_run env n s = Some (ls, s') -> exec s ls s'.
Proof.
  induction n as [|n IH]; intros s ls s' H; cbn [sched_run] in H.
  - inversion H; subst. constructor.
  - destruct (sched_step env s) as [[l s1]|] eqn:E; [|discriminate].
    destruct (sched_run env n s1) as [[ls1 s2]|] eqn:E1; [|discriminate].
    inversion H; subst. econstructor; [eapply step_sched; exact E | apply IH; exact E1].
Qed.

Lemma play_exec env : forall ms s ls s',
  play env ms s = Some (ls, s') -> exec s ls s'.
Proof.
  induction ms as [|m ms IH]; intros s ls s' H; cbn [play] in H.
  - inversion H; subst. constructor.
  - destruct m as [n | a].
    + destruct (sched_run env n s) as [[l1 s1]|] eqn:E; [|discriminate].
      destruct (play env ms s1) as [[l2 s2]|] eqn:E2; [|discriminate].
      inversion H; subst. eapply exec_app; [eapply sched_run_exec; exact E | apply IH; exact E2].
    + destruct (play env ms _) as [[l2 s2]|] eqn:E2; [|discriminate].
      inversion H; subst. cbn [app]. econstructor; [apply step_env | apply IH; exact E2].
Qed.

End SchedulerSteps.

Section SchedulerClaims.
Context {lib : PyLib}.

Ltac sched_eval Hn Hp :=
  do 5 (cbn [sched_run sched_step pc shared countdown_from REFRESH_INTERVAL Nat.sub
             refresh_now refresh_paused set_next_refresh_in set_refresh_now set_status];
        rewrite ?Hn, ?Hp).





(** C7, as the code has it.  [pause()] sets the flag and [next_refresh_in]
    to null; [resume()] clears the flag and sets [next_refresh_in] to the
    configured interval.  A scheduler that reads the flag as set, at the top
    of its loop or at a countdown tick, starts no cycle, writes null and
    goes back to the top; while nobody clears the flag it starts no cycle
    at all.  With the flag clear and no trigger pending, the scheduler at
    the top of its loop counts down from the full interval. *)
Theorem pause_observed_blocks_cycles (env : CycleEnv) (st : Shared) :
  str_lower "pause" = "pause" ->
  str_lower "resume" = "resume" ->
  (refresh_paused (set_refresh "pause" st) = true
   /\ next_refresh_in (snap_status (get_status_snapshot (set_refresh "pause" st))) = None)
  /\ (refresh_paused (set_refresh "resume" st) = false
   /\ next_refresh_in (snap_status (get_status_snapshot (set_refresh "resume" st)))
      = Some REFRESH_INTERVAL)
  /\ (refresh_paused st = true ->
      exists st', sched_run env 3 (mkSys Top st)
                  = Some ([LObserve; LObserve; LSleep], mkSys Top st')
        /\ next_refresh_in (status st') = None)
  /\ (refresh_paused st = true -> forall i,
      exists st', sched_run env 2 (mkSys (CdPause i) st)
                  = Some ([LObserve; LObserve], mkSys Top st')
        /\ next_refresh_in (status st') = None)
  /\ (forall s ls s', exec s ls s' ->
      refresh_paused (shared s) = true -> pause_side (pc s) = true ->
      count_label is_unpause ls = 0 ->
      count_label is_start ls = 0
      /\ refresh_paused (shared s') = true /\ pause_side (pc s') = true)
  /\ (refresh_paused st = false -> refresh_now st = false ->
      exists st', sched_run env 5 (mkSys Top st)
                  = Some ([LObserve; LObserve; LObserve; LObserve; LObserve],
                          mkSys (CdSleep REFRESH_INTERVAL) st')
        /\ next_refresh_in (status st') = Some REFRESH_INTERVAL).
Proof.
  intros Hpause Hresume.
  split; [|split; [|split; [|split; [|split]]]].
  - unfold set_refresh, set_refresh_script. rewrite Hpause. cbn. auto.
  - unfold set_refresh, set_refresh_script. rewrite Hresume. cbn. auto.
  - intros Hp. eexists. sched_eval Hp Hp. split; reflexivity.
  - intros Hp i. eexists. sched_eval Hp Hp. split; reflexivity.
  - apply @exec_pause_side.
  - intros Hp Hn. eexists. sched_eval Hn Hp. split; reflexivity.
Qed.

End SchedulerClaims.


Lemma pause_observed_blocks_cycles_witness :
  str_lower (PyLib := Demo.lib) "pause" = "pause"
  /\ str_lower (PyLib := Demo.lib) "resume" = "resume"
  /\ refresh_paused (set_refresh (lib := Demo.lib) "pause" initial) = true
  /\ next_refresh_in (snap_status (get_status_snapshot
        (set_refresh (lib := Demo.lib) "pause" initial))) = None.
Proof.
  assert (H1 : str_lower (PyLib := Demo.lib) "pause" = "pause") by reflexivity.
  assert (H2 : str_lower (PyLib := Demo.lib) "resume" = "resume") by reflexivity.
  split; [exact H1|]. split; [exact H2|].
  exact (proj1 (pause_observed_blocks_cycles (lib := Demo.lib)
           (mkEnv Demo.no_web (TotalsPage None) None) initial H1 H2)).
Defined.

(** C7 fails as stated.  The service starts and counts down to its last
    tick; during the last one-second sleep a [pause] request is served in
    full.  The countdown loop is over, the pause flag is not read again,
    and the scheduler starts a cycle with the flag set and
    [next_refresh_in] at 0. *)
Lemma pause_in_last_second_does_not_stop_cycle :
  set_refresh_script (lib := Demo.lib) "pause"
  = [ASetPaused true; AUpdateStatus (kw_next None); AAddLog "⏸️ Refresh paused"]
  /\ exists ls s1 s2,
      exec (lib := Demo.lib) (main_start (H := Demo.lib) initial) ls s1
      /\ pc s1 = CdSleep 1
      /\ refresh_paused (shared s1) = false
      /\ exec (lib := Demo.lib) s1
           [LEnv (ASetPaused true); LEnv (AUpdateStatus (kw_next None));
            LEnv (AAddLog "⏸️ Refresh paused"); LSleep; LExpire; LStart] s2
      /\ observed (pc s2) = RUNNING_CYCLE
      /\ refresh_paused (shared s2) = true
      /\ next_refresh_in (snap_status (get_status_snapshot (shared s2))) = Some 0.
Proof.
  split; [reflexivity|].
  pose (env := mkEnv Demo.no_web (TotalsPage None) None).
  destruct (sched_run (lib := Demo.lib) env 41 (main_start (H := Demo.lib) initial))
    as [[ls s1]|] eqn:E1; [|vm_compute in E1; discriminate].
  destruct (play (lib := Demo.lib) env
              [Handler (ASetPaused true); Handler (AUpdateStatus (kw_next None));
               Handler (AAddLog "⏸️ Refresh paused"); Sched 3] s1)
    as [[ls2 s2]|] eqn:E2.
  - exists ls, s1, s2.
    pose proof (sched_run_exec (lib := Demo.lib) env _ _ _ _ E1) as X1.
    pose proof (play_exec (lib := Demo.lib) env _ _ _ _ E2) as X2.
    vm_compute in E1. inversion E1; subst ls s1. clear E1.
    vm_compute in E2. inversion E2; subst ls2 s2. clear E2.
    split; [exact X1|]. split; [reflexivity|]. split; [reflexivity|].
    split; [exact X2|]. split; [reflexivity|]. split; reflexivity.
  - vm_compute in E1. inversion E1; subst ls s1. vm_compute in E2. discriminate.
Qed.

(** * Further properties of the program *)

(** ** EventBus: registration and order of delivery *)

Lemma set_event_subscribers_same st :
  set_event_subscribers (event_subscribers st) st = st.
Proof. destruct st; reflexivity. Qed.

Lemma publish_all_lookup evs : forall st h,
  event_subscribers (publish_all evs st) !! h
  = (fun q => foldl (fun q ev => deliver (payload_of ev) q) q evs)
    <$> (event_subscribers st !! h).
Proof.
  unfold publish_all. induction evs as [|ev evs IH]; intros st h; cbn [foldl].
  - destruct (event_subscribers st !! h); reflexivity.
  - rewrite IH, publish_event_lookup. destruct (event_subscribers st !! h); reflexivity.
Qed.

Lemma deliver_all_unbounded evs : forall q,
  maxsize q = 0%Z ->
  foldl (fun q ev => deliver (payload_of ev) q) q evs
  = mkQueue 0 (pending q ++ map payload_of evs).
Proof.
  induction evs as [|ev evs IH]; intros q Hq; cbn [foldl map].
  - rewrite app_nil_r. destruct q; cbn in *; now subst.
  - rewrite IH by (rewrite deliver_unbounded by exact Hq; reflexivity).
    rewrite deliver_unbounded by exact Hq. cbn [pending]. now rewrite <- app_assoc.
Qed.

Lemma publish_all_unbounded evs st : all_unbounded st -> all_unbounded (publish_all evs st).
Proof.
  intros Hinv h q'. rewrite publish_all_lookup.
  destruct (event_subscribers st !! h) as [q|] eqn:Hq; [|discriminate].
  cbn [fmap option_fmap option_map]. intros [= <-].
  now rewrite deliver_all_unbounded by exact (Hinv h q Hq).
Qed.

Lemma subscribe_events_unbounded st :
  all_unbounded st -> all_unbounded (snd (subscribe_events st)).
Proof.
  intros Hinv h q. cbn [subscribe_events fst snd event_subscribers set_event_subscribers].
  rewrite lookup_insert. case_decide; [intros [= <-]; reflexivity | apply Hinv].
Qed.

(** X1. [unsubscribe_events] removes the given subscriber and no other; it
    does nothing for a subscriber that is not registered, so doing it twice
    is doing it once; undoing a subscription restores the registry; and
    the events that reach another subscriber are the same with or without
    it. *)
Theorem unsubscribe_events_removes_only_that_one (st : Shared) (h : nat)
    (evs : list (string * EventData)) :
  event_subscribers (unsubscribe_events h st) !! h = None
  /\ (forall h', h' <> h ->
      event_subscribers (unsubscribe_events h st) !! h' = event_subscribers st !! h')
  /\ (event_subscribers st !! h = None -> unsubscribe_events h st = st)
  /\ unsubscribe_events h (unsubscribe_events h st) = unsubscribe_events h st
  /\ unsubscribe_events (fst (subscribe_events st)) (snd (subscribe_events st)) = st
  /\ (forall h', h' <> h ->
      event_subscribers (publish_all evs (unsubscribe_events h st)) !! h'
      = event_subscribers (publish_all evs st) !! h').
Proof.
  assert (Hnone : forall s, event_subscribers s !! h = None -> unsubscribe_events h s = s).
  { intros s Hs. unfold unsubscribe_events. rewrite delete_id by exact Hs.
    apply set_event_subscribers_same. }
  assert (Hgone : event_subscribers (unsubscribe_events h st) !! h = None).
  { cbn [unsubscribe_events event_subscribers set_event_subscribers]. apply lookup_delete_eq. }
  assert (Hother : forall h', h' <> h ->
      event_subscribers (unsubscribe_events h st) !! h' = event_subscribers st !! h').
  { intros h' Hne. cbn [unsubscribe_events event_subscribers set_event_subscribers].
    apply lookup_delete_ne. congruence. }
  split; [exact Hgone|]. split; [exact Hother|]. split; [apply Hnone|].
  split; [apply Hnone; exact Hgone|]. split.
  - unfold unsubscribe_events, subscribe_events.
    cbn [fst snd event_subscribers set_event_subscribers].
    rewrite delete_insert_id by (apply not_elem_of_dom, is_fresh).
    destruct st; reflexivity.
  - intros h' Hne. rewrite !publish_all_lookup, Hother by exact Hne. reflexivity.
Qed.

(** X2. Events published one after the other reach every registered
    subscriber in that order, behind what its channel already holds. *)
Theorem publish_all_in_order (st : Shared) (evs : list (string * EventData))
    (h : nat) (q : Queue) :
  all_unbounded st ->
  event_subscribers st !! h = Some q ->
  event_subscribers (publish_all evs st) !! h
  = Some (mkQueue 0 (pending q ++ map payload_of evs)).
Proof.
  intros Hinv Hq. rewrite publish_all_lookup, Hq. cbn [fmap option_fmap option_map].
  f_equal. apply deliver_all_unbounded. exact (Hinv h q Hq).
Qed.

Lemma publish_all_in_order_witness :
  all_unbounded (snd (subscribe_events initial))
  /\ event_subscribers (snd (subscribe_events initial)) !! fst (subscribe_events initial)
     = Some Queue_new
  /\ event_subscribers
       (publish_all [("log", DataLog (mkLogEntry "t" "a")); ("log", DataLog (mkLogEntry "t" "b"))]
          (snd (subscribe_events initial))) !! fst (subscribe_events initial)
     = Some (mkQueue 0 (pending Queue_new ++
               map payload_of [("log", DataLog (mkLogEntry "t" "a"));
                               ("log", DataLog (mkLogEntry "t" "b"))])).
Proof.
  assert (H1 : all_unbounded (snd (subscribe_events initial)))
    by (apply subscribe_events_unbounded, initial_all_unbounded).
  assert (H2 : event_subscribers (snd (subscribe_events initial)) !! fst (subscribe_events initial)
               = Some Queue_new) by (vm_compute; reflexivity).
  split; [exact H1|]. split; [exact H2|].
  exact (publish_all_in_order _ _ _ _ H1 H2).
Defined.

(** The channel of a subscriber that registers after [before] was
    published, once [after] has been published. *)
Lemma late_subscriber_queue (st : Shared) (before after : list (string * EventData)) :
  all_unbounded st ->
  event_subscribers
    (publish_all after (snd (subscribe_events (publish_all before st))))
    !! fst (subscribe_events (publish_all before st))
  = Some (mkQueue 0 (map payload_of after)).
Proof.
  intros Hinv.
  assert (H1 : all_unbounded (snd (subscribe_events (publish_all before st))))
    by apply subscribe_events_unbounded, publish_all_unbounded, Hinv.
  rewrite publish_all_lookup.
  cbn [subscribe_events fst snd event_subscribers set_event_subscribers].
  rewrite lookup_insert_eq. cbn [fmap option_fmap option_map].
  now rewrite deliver_all_unbounded.
Qed.

(** X3. A subscriber receives the events published after it registered,
    all of them and in order, and none of those published before. *)
Theorem late_subscriber_gets_later_events (st : Shared)
    (before after : list (string * EventData)) :
  all_unbounded st ->
  event_subscribers
    (publish_all after (snd (subscribe_events (publish_all before st))))
    !! fst (subscribe_events (publish_all before st))
  = Some (mkQueue 0 (map payload_of after)).
Proof.
  apply late_subscriber_queue.
Qed.

Lemma late_subscriber_gets_later_events_witness :
  all_unbounded initial
  /\ event_subscribers
       (publish_all [("log", DataLog (mkLogEntry "t" "b"))]
          (snd (subscribe_events (publish_all [("log", DataLog (mkLogEntry "t" "a"))] initial))))
       !! fst (subscribe_events (publish_all [("log", DataLog (mkLogEntry "t" "a"))] initial))
     = Some (mkQueue 0 (map payload_of [("log", DataLog (mkLogEntry "t" "b"))])).
Proof.
  split; [exact initial_all_unbounded|].
  exact (late_subscriber_gets_later_events initial _ _ initial_all_unbounded).
Defined.

(** ** SharedState: [add_log] and [update_status] *)

Lemma append_capped_last e l : last (append_capped e l) = Some e.
Proof.
  unfold append_capped. destruct (MAX_LOGS <? length (l ++ [e]))%nat eqn:E.
  - destruct l as [|a l]; [discriminate E|].
    cbn [app drop]. apply last_snoc.
  - apply last_snoc.
Qed.

Section SharedFacts.
Context {lib : PyLib}.

(** X4. [add_log] stamps the message with the clock, leaves the new entry
    last in the buffer, hands it as a [log] event to every registered
    subscriber, and touches neither the status nor the registrations. *)
Theorem add_log_keeps_newest_and_fans_out (message : string) (st : Shared) :
  last (log_entries (add_log message st))
  = Some (mkLogEntry (strftime (now (clock_reads st))) message)
  /\ (forall h q, event_subscribers st !! h = Some q -> maxsize q = 0%Z ->
      event_subscribers (add_log message st) !! h
      = Some (mkQueue 0 (pending q ++
          [mkPayload "log" (DataLog (mkLogEntry (strftime (now (clock_reads st))) message))])))
  /\ dom (event_subscribers (add_log message st)) = dom (event_subscribers st)
  /\ status (add_log message st) = status st
  /\ filters (add_log message st) = filters st
  /\ manual_adjustment (add_log message st) = manual_adjustment st.
Proof.
  split; [rewrite add_log_entries; apply append_capped_last|].
  split.
  { intros h q Hq Hm. unfold add_log. rewrite publish_event_lookup.
    cbn [event_subscribers set_log_entries set_clock_reads]. rewrite Hq.
    cbn [fmap option_fmap option_map]. f_equal. now apply deliver_unbounded. }
  split; [|repeat split].
  unfold add_log, publish_event.
  cbn [event_subscribers set_event_subscribers set_log_entries set_clock_reads].
  apply dom_fmap_L.
Qed.

Lemma status_update_none s : status_update kw_none s = s.
Proof. destruct s; reflexivity. Qed.

(** X5. [update_status] overwrites the keys it is given and keeps the
    others; with no key it changes nothing of the status.  The snapshot it
    returns is the one a read of the state right after gives, and that
    same snapshot is what every registered subscriber is sent. *)
Theorem update_status_merges_and_publishes (kw : StatusKw) (st : Shared) :
  status (snd (update_status kw st)) = status_update kw (status st)
  /\ next_refresh_in (status (snd (update_status kw st)))
     = default (next_refresh_in (status st)) (kw_next_refresh_in kw)
  /\ last_total (status (snd (update_status kw st)))
     = default (last_total (status st)) (kw_last_total kw)
  /\ last_refresh (status (snd (update_status kw st)))
     = default (last_refresh (status st)) (kw_last_refresh kw)
  /\ status (snd (update_status kw_none st)) = status st
  /\ fst (update_status kw st) = get_status_snapshot (snd (update_status kw st))
  /\ (forall h q, event_subscribers st !! h = Some q -> maxsize q = 0%Z ->
      event_subscribers (snd (update_status kw st)) !! h
      = Some (mkQueue 0 (pending q ++
          [mkPayload "status" (DataStatus (fst (update_status kw st)))]))).
Proof.
  assert (Hst : status (snd (update_status kw st)) = status_update kw (status st)).
  { unfold update_status. destruct (kw_empty kw) eqn:E; [|reflexivity].
    destruct kw as [[?|] [?|] [?|]]; try discriminate. cbn. now rewrite status_update_none. }
  split; [exact Hst|]. rewrite Hst.
  split; [reflexivity|]. split; [reflexivity|]. split; [reflexivity|].
  split; [reflexivity|]. split.
  - unfold update_status. destruct (kw_empty kw); reflexivity.
  - intros h q Hq Hm. unfold update_status. cbn [fst snd].
    rewrite publish_event_lookup.
    assert (Hsub : forall b : bool, event_subscribers
              (if b then st else set_status (status_update kw (status st)) st) !! h = Some q)
      by (intros []; exact Hq).
    rewrite Hsub. cbn [fmap option_fmap option_map]. f_equal. now apply deliver_unbounded.
Qed.

Lemma add_log_within_cap m st : log_within_cap st -> log_within_cap (add_log m st).
Proof. unfold log_within_cap. rewrite add_log_entries. apply append_capped_length. Qed.

Lemma add_logs_within_cap msgs : forall st,
  log_within_cap st -> log_within_cap (add_logs msgs st).
Proof.
  unfold add_logs. induction msgs as [|m ms IH]; intros st H; cbn [foldl]; [exact H|].
  apply IH, add_log_within_cap, H.
Qed.

Lemma update_status_within_cap kw st :
  log_within_cap st -> log_within_cap (snd (update_status kw st)).
Proof. unfold update_status, log_within_cap. destruct (kw_empty kw); exact id. Qed.

Lemma run_atom_within_cap a st : log_within_cap st -> log_within_cap (run_atom a st).
Proof.
  destruct a; cbn [run_atom]; try exact id.
  - apply update_status_within_cap.
  - apply add_log_within_cap.
Qed.

Lemma set_clock_reads_within_cap n st :
  log_within_cap st -> log_within_cap (set_clock_reads n st).
Proof. exact id. Qed.

Lemma run_cycle_within_cap env st :
  log_within_cap st ->
  match run_cycle env st with
  | Completed st' _ | Raised _ st' => log_within_cap st'
  | Unfinished => True
  end.
Proof.
  intros H0. unfold run_cycle. cbn [read_clock].
  destruct (fetch_auction_items _ _ _) as [[w|e w]|]; [| |exact I].
  2: { apply add_logs_within_cap, set_clock_reads_within_cap, add_log_within_cap, H0. }
  destruct (apply_filters_to_items _ _ _) as [kept out].
  destruct out as [|o out];
    (match goal with
     | |- context [get_total_raised ?r ?x] =>
         assert (H4 : log_within_cap (snd (get_total_raised r x)))
           by (destruct r; cbn [get_total_raised snd];
               repeat first [ exact H0
                            | apply add_log_within_cap
                            | apply add_logs_within_cap
                            | apply set_clock_reads_within_cap ]);
         destruct (get_total_raised r x) as [tot st4]
     end;
     cbn [snd] in H4;
     destruct (env_write_error env); cbn [read_clock]; [exact H4|];
     match goal with
     | |- context [update_status ?k ?x] =>
         pose proof (update_status_within_cap k x) as Hu;
         destruct (update_status k x) as [snap st5]
     end;
     cbn [snd] in Hu; apply Hu;
     repeat first [ exact H4
                  | apply add_log_within_cap
                  | apply set_clock_reads_within_cap ]).
Qed.

(** X6. Nothing the system does takes the log buffer over its cap: from a
    state within [MAX_LOGS], every run of the scheduler interleaved with
    handler steps, cycles included, ends within [MAX_LOGS]. *)
Theorem log_within_cap_always (s : Sys) (ls : list Label) (s' : Sys) :
  exec s ls s' -> log_within_cap (shared s) -> log_within_cap (shared s').
Proof.
  induction 1 as [s | s l s1 ls s2 Hstep _ IH]; intros H0; [exact H0|].
  apply IH. destruct Hstep as [env s l s1 Hs | a s].
  - destruct s as [p st]. unfold sched_step in Hs. cbn [pc shared] in *.
    destruct p; try (inversion Hs; subst; exact H0);
      try (destruct (refresh_now st); inversion Hs; subst; exact H0).
    pose proof (run_cycle_within_cap env st H0) as Hc.
    destruct (run_cycle env st); inversion Hs; subst; exact Hc.
  - cbn [shared]. apply run_atom_within_cap, H0.
Qed.

End SharedFacts.

Lemma log_within_cap_always_witness :
  exec (lib := Demo.lib)
    (mkSys Run initial) [LStart; LCycle (mkEnv Demo.no_web (TotalsPage None) None)]
    (mkSys Top (match run_cycle (lib := Demo.lib) (mkEnv Demo.no_web (TotalsPage None) None)
                        (set_next_refresh_in (Some 0) initial) with
                | Completed st _ => st
                | _ => initial
                end))
  /\ log_within_cap initial
  /\ log_within_cap (match run_cycle (lib := Demo.lib) (mkEnv Demo.no_web (TotalsPage None) None)
                        (set_next_refresh_in (Some 0) initial) with
                     | Completed st _ => st
                     | _ => initial
                     end).
Proof.
  assert (H1 : exec (lib := Demo.lib)
    (mkSys Run initial) [LStart; LCycle (mkEnv Demo.no_web (TotalsPage None) None)]
    (mkSys Top (match run_cycle (lib := Demo.lib) (mkEnv Demo.no_web (TotalsPage None) None)
                        (set_next_refresh_in (Some 0) initial) with
                | Completed st _ => st
                | _ => initial
                end))).
  { apply (sched_run_exec (lib := Demo.lib) (mkEnv Demo.no_web (TotalsPage None) None) 2).
    vm_compute. reflexivity. }
  assert (H2 : log_within_cap initial) by (unfold log_within_cap; cbn; lia).
  split; [exact H1|]. split; [exact H2|].
  exact (log_within_cap_always (lib := Demo.lib) _ _ _ H1 H2).
Defined.

(** ** [set_filters] *)

Lemma lstrip_head l :
  match PyStr.lstrip l with c :: _ => PyStr.is_space c = false | [] => True end.
Proof.
  induction l as [|c l IH]; cbn [PyStr.lstrip]; [exact I|].
  destruct (PyStr.is_space c) eqn:E; [exact IH | exact E].
Qed.

Lemma lstrip_fixed l :
  match l with c :: _ => PyStr.is_space c = false | [] => True end ->
  PyStr.lstrip l = l.
Proof. destruct l as [|c l]; cbn [PyStr.lstrip]; [reflexivity | now intros ->]. Qed.

Lemma lstrip_suffix l : exists sp, l = sp ++ PyStr.lstrip l.
Proof.
  induction l as [|c l [sp IH]]; cbn [PyStr.lstrip]; [now exists []|].
  destruct (PyStr.is_space c); [exists (c :: sp); cbn; now f_equal | now exists []].
Qed.

(** What [strip] leaves is a run of the string, with nothing to strip. *)
Lemma strip_list_infix l : exists sp1 sp2, l = sp1 ++ PyStr.strip_list l ++ sp2.
Proof.
  unfold PyStr.strip_list.
  destruct (lstrip_suffix l) as [sp1 H1].
  destruct (lstrip_suffix (rev (PyStr.lstrip l))) as [sp2 H2].
  exists sp1, (rev sp2). rewrite <- rev_app_distr, <- H2, rev_involutive. exact H1.
Qed.

Lemma strip_list_idem l : PyStr.strip_list (PyStr.strip_list l) = PyStr.strip_list l.
Proof.
  unfold PyStr.strip_list at 1.
  assert (H1 : PyStr.lstrip (PyStr.strip_list l) = PyStr.strip_list l).
  { apply lstrip_fixed. unfold PyStr.strip_list.
    destruct (lstrip_suffix (rev (PyStr.lstrip l))) as [sp H].
    pose proof (lstrip_head l) as Hh.
    apply (f_equal (@rev ascii)) in H. rewrite rev_involutive, rev_app_distr in H.
    destruct (rev (PyStr.lstrip (rev (PyStr.lstrip l)))) as [|c r]; [exact I|].
    rewrite H in Hh. exact Hh. }
  rewrite H1. unfold PyStr.strip_list at 1. rewrite rev_involutive.
  rewrite (lstrip_fixed (PyStr.lstrip (rev (PyStr.lstrip l)))) by apply lstrip_head.
  reflexivity.
Qed.

Lemma strip_idem s : PyStr.strip (PyStr.strip s) = PyStr.strip s.
Proof.
  unfold PyStr.strip. now rewrite list_ascii_of_string_of_list_ascii, strip_list_idem.
Qed.

Lemma keyword_of_trimmed v k : keyword_of v = Some k -> trimmed k /\ k = PyStr.strip v.
Proof.
  unfold keyword_of. destruct (Str.truthy (PyStr.strip v)) eqn:E; [|discriminate].
  intros [= <-]. split; [|reflexivity]. split; [now apply truthy_nonempty | apply strip_idem].
Qed.

Lemma keyword_of_fixed k : trimmed k -> keyword_of k = Some k.
Proof.
  intros [Hne Hs]. unfold keyword_of. rewrite Hs.
  apply truthy_nonempty in Hne. now rewrite Hne.
Qed.

Lemma omap_keyword_trimmed vs : Forall trimmed (omap keyword_of vs).
Proof.
  induction vs as [|v vs IH]; cbn [omap list_omap]; [constructor|].
  destruct (keyword_of v) as [k|] eqn:E; [|exact IH].
  constructor; [exact (proj1 (keyword_of_trimmed _ _ E)) | exact IH].
Qed.

Lemma omap_keyword_fixed fs : Forall trimmed fs -> omap keyword_of fs = fs.
Proof.
  induction 1 as [|f fs Hf _ IH]; cbn [omap list_omap]; [reflexivity|].
  now rewrite (keyword_of_fixed f Hf), IH.
Qed.

Lemma parse_filters_trimmed raw : Forall trimmed (parse_filters raw).
Proof. destruct raw; apply omap_keyword_trimmed. Qed.

Lemma trimmed_all_active lower fs :
  Forall trimmed fs -> active_filters lower fs = map (fun f => (f, lower f)) fs.
Proof.
  intros H. apply active_filters_wf. eapply Forall_impl; [exact H|]. now intros f [Hne _].
Qed.

Section SetFilters.
Context {lib : PyLib}.

(** X7. [set_filters] puts in place of the old filter list the keywords it
    was given, each stripped, in their order, without those that are empty
    once stripped; its reply and the next status snapshot show that list.
    Every stored filter has something in it and no white space at either
    end, so the filter engine skips none of them.  Adjustment, status and
    flags are left as they are. *)
Theorem set_filters_stores_trimmed (raw : RawFilters) (st : Shared) (lower : string -> string) :
  filters (snd (set_filters raw st)) = parse_filters raw
  /\ fst (set_filters raw st) = parse_filters raw
  /\ snap_filters (get_status_snapshot (snd (set_filters raw st))) = parse_filters raw
  /\ Forall trimmed (filters (snd (set_filters raw st)))
  /\ active_filters lower (filters (snd (set_filters raw st)))
     = map (fun f => (f, lower f)) (filters (snd (set_filters raw st)))
  /\ (forall vs, Forall trimmed vs -> filters (snd (set_filters (RawList vs) st)) = vs)
  /\ filters (snd (set_filters (RawList []) st)) = []
  /\ manual_adjustment (snd (set_filters raw st)) = manual_adjustment st
  /\ status (snd (set_filters raw st)) = status st
  /\ flags (snd (set_filters raw st)) = flags st.
Proof.
  assert (H : forall r, filters (snd (set_filters r st)) = parse_filters r) by reflexivity.
  split; [apply H|]. split; [reflexivity|]. split; [reflexivity|].
  rewrite !H. split; [apply parse_filters_trimmed|].
  split; [apply trimmed_all_active, parse_filters_trimmed|].
  split; [intros vs Hvs; rewrite H; apply omap_keyword_fixed, Hvs|].
  repeat split.
Qed.

End SetFilters.

Lemma split_nonempty c s : PyStr.split c s <> [].
Proof.
  destruct s as [|a s]; cbn [PyStr.split]; [discriminate|].
  destruct (Ascii.eqb a c); [discriminate|]. destruct (PyStr.split c s); discriminate.
Qed.

Lemma split_no_sep c s : has_char c s = false -> PyStr.split c s = [s].
Proof.
  induction s as [|a s IH]; cbn [has_char PyStr.split]; [reflexivity|].
  intros H. apply orb_false_iff in H as [Ha Hs]. now rewrite Ha, IH.
Qed.

Lemma split_prefix c pad s :
  has_char c pad = false ->
  PyStr.split c (pad +:+ s)
  = match PyStr.split c s with
    | seg :: rest => (pad +:+ seg) :: rest
    | [] => []
    end.
Proof.
  induction pad as [|a pad IH]; cbn [has_char]; intros H.
  - change ("" +:+ s) with s. destruct (PyStr.split c s); reflexivity.
  - apply orb_false_iff in H as [Ha Hp].
    change (String a pad +:+ s) with (String a (pad +:+ s)).
    cbn [PyStr.split]. rewrite Ha, IH by exact Hp.
    pose proof (split_nonempty c s). destruct (PyStr.split c s); [contradiction | reflexivity].
Qed.

Lemma split_at_sep c a b :
  has_char c a = false ->
  PyStr.split c (a +:+ String c b) = a :: PyStr.split c b.
Proof.
  intros Ha. rewrite split_prefix by exact Ha. cbn [PyStr.split]. rewrite Ascii.eqb_refl.
  f_equal. clear. induction a as [|x a IH]; [reflexivity|].
  change (String x a +:+ "") with (String x (a +:+ "")). now rewrite IH.
Qed.

Lemma split_join c pad fs :
  has_char c pad = false ->
  Forall (fun f => has_char c f = false) fs ->
  PyStr.split c (PyStr.join (String c pad) fs)
  = match fs with
    | [] => [""]
    | f :: rest => f :: map (String.append pad) rest
    end.
Proof.
  intros Hpad Hfs. unfold PyStr.join. induction Hfs as [|f fs Hf Hrest IH]; [reflexivity|].
  destruct fs as [|g fs].
  - now apply split_no_sep.
  - change (String.concat (String c pad) (f :: g :: fs))
      with (f +:+ String c (pad +:+ String.concat (String c pad) (g :: fs))).
    rewrite split_at_sep by exact Hf. rewrite split_prefix by exact Hpad.
    rewrite IH. reflexivity.
Qed.

Lemma has_char_list c l :
  has_char c (string_of_list_ascii l) = existsb (fun a => Ascii.eqb a c) l.
Proof. induction l as [|a l IH]; cbn; [reflexivity | now rewrite IH]. Qed.

Lemma strip_keeps_free c s : has_char c s = false -> has_char c (PyStr.strip s) = false.
Proof.
  intros H. rewrite <- (string_of_list_ascii_of_string s), has_char_list in H.
  unfold PyStr.strip. rewrite has_char_list.
  destruct (strip_list_infix (list_ascii_of_string s)) as (sp1 & sp2 & Heq).
  rewrite Heq, !existsb_app in H.
  apply orb_false_iff in H as [_ H]. now apply orb_false_iff in H as [H _].
Qed.

Lemma split_segments_free c s : Forall (fun f => has_char c f = false) (PyStr.split c s).
Proof.
  induction s as [|a s IH]; cbn [PyStr.split]; [repeat constructor|].
  destruct (Ascii.eqb a c) eqn:E; [constructor; [reflexivity | exact IH]|].
  destruct (PyStr.split c s) as [|seg rest]; [repeat constructor; cbn; now rewrite E|].
  inversion IH; subst. constructor; [cbn; rewrite E; assumption | assumption].
Qed.

Lemma omap_keyword_free c vs :
  Forall (fun f => has_char c f = false) vs ->
  Forall (fun f => has_char c f = false) (omap keyword_of vs).
Proof.
  induction 1 as [|v vs Hv _ IH]; cbn [omap list_omap]; [constructor|].
  destruct (keyword_of v) as [k|] eqn:E; [|exact IH].
  constructor; [|exact IH].
  apply keyword_of_trimmed in E as [_ ->]. now apply strip_keeps_free.
Qed.

(** X8. A string of keywords is cut at its commas: no keyword that comes
    from a string has a comma in it.  For keywords that are trimmed and
    have no comma, the string that [set_filters] shows in the log (the
    keywords joined by a comma and a space), and the keywords joined by
    commas alone, are read back as the same list as the list itself. *)
Theorem keyword_string_round_trip (fs : list string) :
  Forall trimmed fs ->
  Forall (fun f => has_char "," f = false) fs ->
  parse_filters (RawStr (PyStr.join ", " fs)) = fs
  /\ parse_filters (RawStr (PyStr.join "," fs)) = fs
  /\ parse_filters (RawList fs) = fs
  /\ forall s, Forall (fun f => has_char "," f = false) (parse_filters (RawStr s)).
Proof.
  intros Htrim Hfree.
  assert (Hgen : forall pad, has_char "," pad = false ->
            (forall s, PyStr.strip (pad +:+ s) = PyStr.strip s) ->
            parse_filters (RawStr (PyStr.join (String "," pad) fs)) = fs).
  { intros pad Hpad Hstrip. cbn [parse_filters]. rewrite split_join by assumption.
    destruct Htrim as [|f rest Hf Hrest]; [reflexivity|].
    cbn [omap list_omap]. rewrite (keyword_of_fixed f Hf). f_equal.
    clear -Hrest Hstrip. induction Hrest as [|g rest Hg _ IH]; [reflexivity|].
    cbn [map omap list_omap].
    assert (Hk : keyword_of (pad +:+ g) = keyword_of g)
      by (unfold keyword_of; now rewrite Hstrip).
    rewrite Hk, (keyword_of_fixed g Hg). now f_equal. }
  split; [apply (Hgen " "); [reflexivity | reflexivity]|].
  split; [apply (Hgen ""); [reflexivity | reflexivity]|].
  split; [apply omap_keyword_fixed, Htrim|].
  intros s. apply omap_keyword_free, split_segments_free.
Qed.

Lemma keyword_string_round_trip_witness :
  Forall trimmed ["gift card"; "raffle"]
  /\ Forall (fun f => has_char "," f = false) ["gift card"; "raffle"]
  /\ parse_filters (RawStr (PyStr.join ", " ["gift card"; "raffle"])) = ["gift card"; "raffle"].
Proof.
  assert (H1 : Forall trimmed ["gift card"; "raffle"])
    by (repeat constructor; try discriminate; reflexivity).
  assert (H2 : Forall (fun f => has_char "," f = false) ["gift card"; "raffle"])
    by (repeat constructor).
  split; [exact H1|]. split; [exact H2|].
  exact (proj1 (keyword_string_round_trip _ H1 H2)).
Defined.

Example set_filters_examples :
  map parse_filters
    [RawStr " Gift Card ,, raffle ,"; RawList [" a "; "  "; "b,c"]; RawOther " 42 "; RawStr ""]
  = [["Gift Card"; "raffle"]; ["a"; "b,c"]; ["42"]; []].
Proof. vm_compute. reflexivity. Qed.

(** ** The pagination walker: what it collects and what it logs *)

Section WalkTrace.
Context {lib : PyLib}.

Lemma progress_no_error cb its :
  List.filter is_error_log (progress cb (map found_message its)) = [].
Proof. destruct cb; cbn [progress]; [|reflexivity]. induction its; cbn; auto. Qed.

Lemma progress_all_progress cb its :
  List.filter is_progress (progress cb (map found_message its))
  = progress cb (map found_message its).
Proof.
  destruct cb; cbn [progress]; [|reflexivity].
  induction its as [|it its IH]; cbn; [reflexivity | now rewrite IH].
Qed.

Lemma progress_app cb a b :
  progress cb (a ++ b) = progress cb a ++ progress cb b.
Proof. destruct cb; reflexivity. Qed.

Lemma keep_walking_false next seen fetched :
  (forall x, x ∈ seen <-> In x fetched) ->
  keep_walking next seen = false ->
  match next with Some v => v = "" \/ In v fetched | None => True end.
Proof.
  intros Hseen Hk. destruct next as [v|]; [|exact I]. unfold keep_walking in Hk.
  apply andb_false_iff in Hk as [Hk | Hk].
  - left. destruct v; [reflexivity | discriminate].
  - right. apply bool_decide_eq_false in Hk. apply Hseen.
    destruct (decide (v ∈ seen)); [assumption | contradiction].
Qed.

Lemma walk_trace web cb : forall fuel next seen acc r,
  walk fuel web cb next seen acc = Some r ->
  (forall x, x ∈ seen <-> In x (w_fetched acc)) ->
  exists new,
    w_fetched (walk_of r) = w_fetched acc ++ new
    /\ w_items (walk_of r) = w_items acc ++ flat_map (cards_at web) new
    /\ match new with
       | u :: _ => next = Some u /\ u <> ""
       | [] => keep_walking next seen = false
       end
    /\ link_chain web new
    /\ List.filter is_error_log (w_emitted (walk_of r))
       = List.filter is_error_log (w_emitted acc) ++ error_logs_of web (last new)
    /\ List.filter is_progress (w_emitted (walk_of r))
       = List.filter is_progress (w_emitted acc)
         ++ progress cb (map found_message (flat_map (cards_at web) new))
    /\ match r with
       | Returned w => new <> [] -> walk_exhausted web (w_fetched w)
       | WalkRaised e w => walk_broken web (w_fetched w) e
       end.
Proof.
  assert (Hstop : forall (acc : Walk) (next : option string) (seen : gset string),
    keep_walking next seen = false ->
    exists new,
    w_fetched (walk_of (Returned acc)) = w_fetched acc ++ new
    /\ w_items (walk_of (Returned acc)) = w_items acc ++ flat_map (cards_at web) new
    /\ match new with
       | u :: _ => next = Some u /\ u <> ""
       | [] => keep_walking next seen = false
       end
    /\ link_chain web new
    /\ List.filter is_error_log (w_emitted (walk_of (Returned acc)))
       = List.filter is_error_log (w_emitted acc) ++ error_logs_of web (last new)
    /\ List.filter is_progress (w_emitted (walk_of (Returned acc)))
       = List.filter is_progress (w_emitted acc)
         ++ progress cb (map found_message (flat_map (cards_at web) new))
    /\ (new <> [] -> walk_exhausted web (w_fetched acc))).
  { intros acc next seen Hk. exists []. cbn [walk_of flat_map map last error_logs_of].
    rewrite !app_nil_r. destruct cb; cbn [progress]; rewrite ?app_nil_r;
      (repeat split; auto; intros Hne; now contradiction Hne). }
  induction fuel as [|fuel IH]; intros next seen acc r Hw Hseen.
  - destruct next as [u|]; cbn [walk] in Hw.
    + destruct (keep_walking (Some u) seen) eqn:Hk; [discriminate|].
      inversion Hw; subst. pose proof (Hstop acc (Some u) seen Hk) as Hs.
      rewrite Hk in Hs. exact Hs.
    + inversion Hw; subst. now apply (Hstop acc None seen).
  - destruct next as [u|]; cbn [walk] in Hw;
      [|inversion Hw; subst; now apply (Hstop acc None seen)].
    destruct (keep_walking (Some u) seen) eqn:Hk;
      [|inversion Hw; subst; pose proof (Hstop acc (Some u) seen Hk) as Hs;
        rewrite Hk in Hs; exact Hs].
    assert (Hu : u <> "").
    { unfold keep_walking in Hk. apply andb_true_iff in Hk as [Ht _].
      now apply truthy_nonempty. }
    assert (Hseen' : forall x, x ∈ ({[u]} ∪ seen : gset string) <-> In x (w_fetched acc ++ [u])).
    { intros x. rewrite elem_of_union, elem_of_singleton, in_app_iff, Hseen. cbn [In].
      intuition congruence. }
    destruct (pages web !! u) as [page|] eqn:Hp.
    + assert (Hc : cards_at web u = cards page) by (unfold cards_at; now rewrite Hp).
      destruct (next_page u page) as [nu|e] eqn:Hn.
      * pose proof (IH _ _ _ _ Hw Hseen') as (new & H1 & H2 & H3 & H4 & H5 & H6 & H7).
        cbn [w_fetched w_items w_emitted] in H1, H2, H5, H6.
        exists (u :: new).
        split; [now rewrite H1, <- app_assoc|].
        split; [cbn [flat_map]; now rewrite H2, Hc, <- app_assoc|].
        split; [auto|]. split.
        { cbn [link_chain]. destruct new as [|v new]; [exact I|].
          split; [|exact H4]. exists page. split; [exact Hp|].
          destruct H3 as [-> _]. exact Hn. }
        split.
        { rewrite H5, List.filter_app, progress_no_error, app_nil_r. f_equal.
          destruct new as [|v new]; [cbn; now rewrite Hp | reflexivity]. }
        split.
        { rewrite H6, List.filter_app, progress_all_progress. cbn [flat_map].
          now rewrite Hc, map_app, progress_app, <- app_assoc. }
        destruct r as [w|e w]; [|exact H7]. intros _.
        destruct new as [|v new]; [|apply H7; discriminate].
        cbn [walk_of] in H1. rewrite app_nil_r in H1. rewrite H1.
        unfold walk_exhausted. rewrite last_snoc, Hp, Hn.
        pose proof (keep_walking_false nu _ _ Hseen' H3) as Hkw.
        destruct nu as [v|]; [exact Hkw | exact I].
      * inversion Hw; subst. cbn [walk_of w_fetched w_items w_emitted]. exists [u].
        split; [reflexivity|]. split; [cbn [flat_map]; now rewrite Hc, app_nil_r|].
        split; [auto|]. split; [exact I|]. split.
        { rewrite List.filter_app, progress_no_error. cbn. now rewrite Hp. }
        split.
        { rewrite List.filter_app, progress_all_progress. cbn [flat_map].
          now rewrite Hc, app_nil_r. }
        exists u, page. rewrite last_snoc. auto.
    + inversion Hw; subst. cbn [walk_of w_fetched w_items w_emitted]. exists [u].
      assert (Hc : cards_at web u = []) by (unfold cards_at; now rewrite Hp).
      split; [reflexivity|]. split; [cbn [flat_map]; now rewrite Hc, !app_nil_r|].
      split; [auto|]. split; [exact I|]. split.
      { rewrite List.filter_app. cbn. now rewrite Hp. }
      split.
      { rewrite List.filter_app. cbn [flat_map]. rewrite Hc. cbn.
        destruct cb; cbn; now rewrite ?app_nil_r. }
      intros _. unfold walk_exhausted. now rewrite last_snoc, Hp.
Qed.

Lemma seen_nothing : forall x : string, x ∈ (∅ : gset string) <-> In x (w_fetched (mkWalk [] [] [])).
Proof. intros x. cbn. split; [intros H; now apply not_elem_of_empty in H | contradiction]. Qed.

(** The walk behind a call of [fetch_auction_items]. *)
Lemma fetch_trace web url cb r :
  fetch_auction_items web url cb = Some r ->
  exists r0, walk (S (size (pages web))) web cb (Some url) ∅ (mkWalk [] [] []) = Some r0
    /\ w_fetched (walk_of r) = w_fetched (walk_of r0)
    /\ w_items (walk_of r) = w_items (walk_of r0)
    /\ match r, r0 with
       | Returned w, Returned w0 =>
           w_emitted w = w_emitted w0 ++ progress cb [collected_message (w_items w0)]
       | WalkRaised e w, WalkRaised e0 w0 => e = e0 /\ w = w0
       | _, _ => False
       end.
Proof.
  unfold fetch_auction_items.
  destruct (walk _ _ _ _ _ _) as [[w0|e0 w0]|]; [| |discriminate]; intros [= <-];
    eexists; (split; [reflexivity|]); cbn; auto.
Qed.


(** X10. The walk logs an error exactly when the last URL it fetched has
    no page, and then one line that names that URL; every other line it
    emits goes to the progress callback: with a callback, one line for
    each item in order and, when the walk returns, a last one with the
    count, and without one, nothing. *)
Theorem walk_logs_one_error_at_most (web : Web) (url : string) (progress_cb : bool)
    (r : WalkEnd) :
  fetch_auction_items web url progress_cb = Some r ->
  List.filter is_error_log (w_emitted (walk_of r))
  = error_logs_of web (last (w_fetched (walk_of r)))
  /\ List.filter is_progress (w_emitted (walk_of r))
     = progress progress_cb
         (map found_message (w_items (walk_of r))
          ++ match r with
             | Returned w => [collected_message (w_items w)]
             | WalkRaised _ _ => []
             end).
Proof.
  intros Hf. apply fetch_trace in Hf as (r0 & Hw & Hf1 & Hf2 & Hf3).
  apply walk_trace in Hw as (new & H1 & H2 & _ & _ & H5 & H6 & _); [|apply seen_nothing].
  cbn [w_fetched w_items w_emitted app List.filter] in H1, H2, H5, H6.
  destruct r as [w|e w], r0 as [w0|e0 w0]; try contradiction; cbn [walk_of] in *.
  - rewrite Hf3, Hf1, Hf2, !List.filter_app, H5, H6, H1, H2. split.
    + destruct progress_cb; cbn; now rewrite ?app_nil_r.
    + rewrite progress_app. f_equal. destruct progress_cb; reflexivity.
  - destruct Hf3 as [-> ->]. rewrite H5, H6, H1, H2, app_nil_r. split; reflexivity.
Qed.

End WalkTrace.


Lemma walk_logs_one_error_at_most_witness :
  let web := mkWeb (<["http://a/1" := mkPage [Demo.item "Lamp"] (Some "http://a/2")]> ∅)
                   (fun _ => "404") in
  let r := Returned (mkWalk [Demo.item "Lamp"]
             [(ToAddLog, "❌ Error fetching http://a/2: 404")]
             ["http://a/1"; "http://a/2"]) in
  fetch_auction_items (H := Demo.lib) web "http://a/1" false = Some r
  /\ List.filter is_error_log (w_emitted (walk_of r))
     = error_logs_of web (last (w_fetched (walk_of r))).
Proof.
  intros web r.
  assert (H : fetch_auction_items (H := Demo.lib) web "http://a/1" false = Some r)
    by (vm_compute; reflexivity).
  split; [exact H|].
  exact (proj1 (walk_logs_one_error_at_most (lib := Demo.lib) web "http://a/1" false r H)).
Defined.

(** ** One scrape cycle: what it writes and what it leaves *)

Section CycleOutput.
Context {lib : PyLib}.

Lemma add_logs_filters msgs : forall st, filters (add_logs msgs st) = filters st.
Proof.
  unfold add_logs. induction msgs as [|m ms IH]; intros st; cbn [foldl]; [reflexivity|].
  now rewrite IH.
Qed.

Lemma add_logs_adjustment msgs : forall st,
  manual_adjustment (add_logs msgs st) = manual_adjustment st.
Proof.
  unfold add_logs. induction msgs as [|m ms IH]; intros st; cbn [foldl]; [reflexivity|].
  now rewrite IH.
Qed.

Lemma get_total_raised_keeps resp st :
  fst (get_total_raised resp st) = totals_text resp
  /\ filters (snd (get_total_raised resp st)) = filters st
  /\ manual_adjustment (snd (get_total_raised resp st)) = manual_adjustment st.
Proof. destruct resp; repeat split. Qed.

(** A completed cycle, field by field. *)
Lemma run_cycle_completed (env : CycleEnv) (st st' : Shared) (out : ScrapeOutput) :
  run_cycle env st = Completed st' out ->
  env_write_error env = None
  /\ (exists w, fetch_auction_items (env_web env) URL true = Some (Returned w)
        /\ items out = fst (apply_filters_to_items str_lower (filters st) (w_items w)))
  /\ total_items out = length (items out)
  /\ out_url out = URL
  /\ total_raised out
     = total_raised_display (totals_text (env_totals env)) (manual_adjustment st)
  /\ last_total (status st') = Some (total_raised out)
  /\ next_refresh_in (status st') = Some REFRESH_INTERVAL
  /\ message <$> last (log_entries st') = Some ("💰 Total Raised: " +:+ total_raised out)
  /\ filters st' = filters st
  /\ manual_adjustment st' = manual_adjustment st
  /\ flags st' = flags st.
Proof.
  intros Hrun.
  pose proof (run_cycle_flags env st) as Hflags. rewrite Hrun in Hflags.
  unfold run_cycle in Hrun. cbn [read_clock] in Hrun.
  destruct (fetch_auction_items (env_web env) URL true) as [[w|e w]|] eqn:Hw;
    [|discriminate|discriminate].
  rewrite add_logs_filters in Hrun. cbn [filters set_clock_reads] in Hrun.
  change (filters (add_log "🚀 Beginning scrape cycle" st)) with (filters st) in Hrun.
  destruct (apply_filters_to_items str_lower (filters st) (w_items w)) as [kept rej] eqn:Hf.
  match type of Hrun with
  | context [get_total_raised ?r ?x] =>
      pose proof (get_total_raised_keeps r x) as (Ht1 & Ht2 & Ht3);
      destruct (get_total_raised r x) as [tot st4]
  end.
  cbn [fst snd] in Ht1, Ht2, Ht3.
  assert (Hadj : manual_adjustment st4 = manual_adjustment st).
  { rewrite Ht3. destruct rej; cbn [manual_adjustment add_log publish_event
      set_event_subscribers set_log_entries set_clock_reads];
      rewrite !add_logs_adjustment; reflexivity. }
  assert (Hfil : filters st4 = filters st).
  { rewrite Ht2. destruct rej; cbn [filters add_log publish_event
      set_event_subscribers set_log_entries set_clock_reads];
      rewrite !add_logs_filters; reflexivity. }
  destruct (env_write_error env) as [e|]; [discriminate|].
  cbn [read_clock update_status kw_empty] in Hrun. inversion Hrun; subst st' out. clear Hrun.
  cbn [items total_items out_url total_raised status last_total next_refresh_in
       filters manual_adjustment log_entries].
  revert Hflags. rewrite Ht1, Hadj. intros Hflags.
  split; [reflexivity|]. split; [exists w; split; [reflexivity | now rewrite Hf]|].
  split; [reflexivity|]. split; [reflexivity|]. split; [reflexivity|].
  split; [reflexivity|]. split; [reflexivity|]. split.
  - cbn [publish_event set_event_subscribers set_status log_entries].
    rewrite add_log_entries, append_capped_last. reflexivity.
  - split; [exact Hfil|]. split; [exact Hadj | exact Hflags].
Qed.




(** X13. Settings made through the handlers are the ones the next cycle
    uses: after [set_adjustment] and [set_filters], a cycle that completes
    displays the fetched total under the new adjustment and keeps the items
    under the new filter list. *)
Theorem settings_take_effect_next_cycle (env : CycleEnv) (amt : PyFloat.float)
    (raw : RawFilters) (st st' : Shared) (out : ScrapeOutput) :
  run_cycle env (snd (set_filters raw (set_adjustment amt st))) = Completed st' out ->
  total_raised out = total_raised_display (totals_text (env_totals env)) amt
  /\ (exists w, fetch_auction_items (env_web env) URL true = Some (Returned w)
        /\ items out = fst (apply_filters_to_items str_lower (parse_filters raw) (w_items w)))
  /\ snap_manual_adjustment (get_status_snapshot st') = amt
  /\ snap_filters (get_status_snapshot st') = parse_filters raw.
Proof.
  intros Hrun.
  destruct (run_cycle_completed _ _ _ _ Hrun)
    as (_ & Hitems & _ & _ & Htot & _ & _ & _ & Hfil & Hadj & _).
  split; [exact Htot|]. split; [exact Hitems|]. split; [exact Hadj | exact Hfil].
Qed.

End CycleOutput.



Lemma settings_take_effect_next_cycle_witness :
  exists st' out,
    run_cycle (lib := Demo.lib) (mkEnv Demo.no_web (TotalsPage (Some "$100.00")) None)
      (snd (set_filters (H := Demo.lib) (RawStr "raffle, gift")
              (set_adjustment (lib := Demo.lib) (Demo.flt "12.5") initial)))
    = Completed st' out
    /\ total_raised out
       = total_raised_display (Some "$100.00") (Demo.flt "12.5").
Proof.
  destruct (fetch_returns (lib := Demo.lib) Demo.no_web URL true no_web_well_formed) as [w Hw].
  destruct (run_cycle_completes (lib := Demo.lib) Demo.no_web (TotalsPage (Some "$100.00"))
              (snd (set_filters (H := Demo.lib) (RawStr "raffle, gift")
                      (set_adjustment (lib := Demo.lib) (Demo.flt "12.5") initial))) w Hw)
    as (st' & out & H).
  exists st', out. split; [exact H|].
  exact (proj1 (settings_take_effect_next_cycle (lib := Demo.lib) _ _ _ _ _ _ H)).
Defined.

(** ** Scheduler: an undisturbed countdown, and a trigger held by a pause *)

Section SchedulerRuns.
Context {lib : PyLib}.

Lemma sched_run_add env : forall n m s ls s1 ls' s2,
  sched_run env n s = Some (ls, s1) ->
  sched_run env m s1 = Some (ls', s2) ->
  sched_run env (n + m) s = Some (ls ++ ls', s2).
Proof.
  induction n as [|n IH]; intros m s ls s1 ls' s2 H1 H2; cbn [sched_run Nat.add] in *.
  - inversion H1; subst. exact H2.
  - destruct (sched_step env s) as [[l sa]|]; [|discriminate].
    destruct (sched_run env n sa) as [[la sb]|] eqn:E; [|discriminate].
    inversion H1; subst. now rewrite (IH _ _ _ _ _ _ E H2).
Qed.

(** One tick with both flags clear: two checks, the status write, the
    sleep. *)
Lemma tick_undisturbed env i st :
  refresh_paused st = false -> refresh_now st = false ->
  sched_run env 4 (mkSys (CdPause i) st)
  = Some (tick_labels, mkSys (countdown_from (i - 1)) (set_next_refresh_in (Some i) st)).
Proof.
  intros Hp Hn.
  cbn [sched_run sched_step pc shared]. rewrite Hp. cbn [sched_run sched_step pc shared].
  rewrite Hn. reflexivity.
Qed.

Lemma countdown_undisturbed env : forall i st,
  refresh_paused st = false -> refresh_now st = false ->
  sched_run env (4 * i) (mkSys (countdown_from i) st)
  = Some (countdown_labels i,
          mkSys CdDone (match i with O => st | S _ => set_next_refresh_in (Some 1) st end)).
Proof.
  induction i as [|i IH]; intros st Hp Hn; [reflexivity|].
  replace (4 * S i) with (4 + 4 * i) by lia.
  cbn [countdown_from countdown_labels].
  eapply sched_run_add; [apply tick_undisturbed; assumption|].
  replace (S i - 1) with i by lia.
  rewrite IH by assumption. destruct i; reflexivity.
Qed.

Lemma count_countdown_sleeps i : count_label is_sleep (countdown_labels i) = i.
Proof.
  induction i as [|i IH]; [reflexivity|].
  cbn [countdown_labels]. rewrite count_label_app, IH. reflexivity.
Qed.

(** X14. With neither flag set and no request served, the scheduler at
    the top of its loop sleeps [REFRESH_INTERVAL] times, one second each,
    and then starts a cycle: it reads the two flags once, runs the ticks,
    writing down to 1 in the status, and comes to the cycle with
    [next_refresh_in] at 0.  The same holds for a countdown of any
    length. *)
Theorem undisturbed_countdown_runs_full_interval (env : CycleEnv) (st : Shared) :
  refresh_paused st = false ->
  refresh_now st = false ->
  sched_run env (2 + 4 * REFRESH_INTERVAL + 2) (mkSys Top st)
  = Some ([LObserve; LObserve] ++ countdown_labels REFRESH_INTERVAL ++ [LExpire; LStart],
          mkSys Cycle (set_next_refresh_in (Some 0) st))
  /\ count_label is_sleep
       ([LObserve; LObserve] ++ countdown_labels REFRESH_INTERVAL ++ [LExpire; LStart])
     = REFRESH_INTERVAL
  /\ (forall i, 0 < i ->
      sched_run env (4 * i) (mkSys (CdPause i) st)
      = Some (countdown_labels i, mkSys CdDone (set_next_refresh_in (Some 1) st))
      /\ count_label is_sleep (countdown_labels i) = i).
Proof.
  intros Hp Hn. split; [|split].
  - assert (H1 : sched_run env 2 (mkSys Top st)
              = Some ([LObserve; LObserve], mkSys (countdown_from REFRESH_INTERVAL) st)).
    { cbn [sched_run sched_step pc shared]. rewrite Hp. cbn [sched_run sched_step pc shared].
      rewrite Hn. reflexivity. }
    pose proof (countdown_undisturbed env REFRESH_INTERVAL st Hp Hn) as H2.
    pose proof (sched_run_add env _ _ _ _ _ _ _ H1 H2) as H3.
    rewrite app_assoc.
    eapply sched_run_add; [exact H3 | reflexivity].
  - reflexivity.
  - intros i Hi. split; [|apply count_countdown_sleeps].
    pose proof (countdown_undisturbed env i st Hp Hn) as H.
    destruct i; [lia | exact H].
Qed.

(** On the pause side with the pause flag set, a step that does not clear
    the flag does not consume the trigger either, and leaves it pending. *)
Lemma step_paused_holds_trigger s l s' :
  step s l s' ->
  refresh_paused (shared s) = true -> pause_side (pc s) = true ->
  refresh_now (shared s) = true ->
  is_consume l = false /\ refresh_now (shared s') = true.
Proof.
  intros Hstep Hp Hside Hn. destruct Hstep as [env s l s' Hs | a s].
  - pose proof (sched_step_flags _ _ _ _ Hs) as [_ Hf].
    destruct s as [p st]. cbn [pc shared] in *. unfold sched_step in Hs. cbn [pc shared] in Hs.
    rewrite Hp in Hs.
    destruct p; try discriminate; inversion Hs; subst; cbn [is_consume] in *;
      (split; [reflexivity | congruence]).
  - cbn [shared is_consume]. rewrite run_atom_now. destruct a; auto.
Qed.

Lemma exec_paused_holds_trigger s ls s' :
  exec s ls s' ->
  refresh_paused (shared s) = true -> pause_side (pc s) = true ->
  refresh_now (shared s) = true ->
  count_label is_unpause ls = 0 ->
  count_label is_consume ls = 0 /\ refresh_now (shared s') = true.
Proof.
  induction 1 as [s | s l s1 ls s2 Hstep _ IH]; intros Hp Hside Hn Hun; [auto|].
  rewrite count_label_cons in Hun.
  assert (Hl : is_unpause l = false) by (destruct (is_unpause l); [cbn in Hun; lia | reflexivity]).
  rewrite Hl in Hun. cbn in Hun.
  destruct (step_pause_side _ _ _ Hstep Hp Hside Hl) as (_ & Hp1 & Hside1).
  destruct (step_paused_holds_trigger _ _ _ Hstep Hp Hside Hn) as (Hc & Hn1).
  destruct (IH Hp1 Hside1 Hn1 Hun) as (Hc2 & Hn2).
  rewrite count_label_cons, Hc. cbn. auto.
Qed.

(** X15. A trigger that comes while the scheduler is paused is neither
    run nor lost: as long as the pause flag is not cleared no cycle starts
    and the trigger stays pending, and once the flag is cleared the
    scheduler at the top of its loop consumes the trigger and goes to the
    cycle without counting down. *)
Theorem trigger_waits_for_resume (env : CycleEnv) (s : Sys) (ls : list Label) (s' : Sys) :
  exec s ls s' ->
  refresh_paused (shared s) = true ->
  pause_side (pc s) = true ->
  refresh_now (shared s) = true ->
  count_label is_unpause ls = 0 ->
  count_label is_start ls = 0
  /\ count_label is_consume ls = 0
  /\ refresh_paused (shared s') = true
  /\ refresh_now (shared s') = true
  /\ sched_run env 2 (mkSys Top (run_atom (ASetPaused false) (shared s')))
     = Some ([LObserve; LConsume],
             mkSys Run (set_refresh_now false (run_atom (ASetPaused false) (shared s')))).
Proof.
  intros Hex Hp Hside Hn Hun.
  destruct (exec_pause_side _ _ _ Hex Hp Hside Hun) as (Hst & Hp' & _).
  destruct (exec_paused_holds_trigger _ _ _ Hex Hp Hside Hn Hun) as (Hc & Hn').
  repeat (split; [assumption|]).
  cbn [sched_run sched_step pc shared run_atom refresh_paused set_refresh_paused refresh_now].
  rewrite Hn'. reflexivity.
Qed.

End SchedulerRuns.

Lemma undisturbed_countdown_runs_full_interval_witness :
  refresh_paused initial = false
  /\ refresh_now initial = false
  /\ sched_run (lib := Demo.lib) (mkEnv Demo.no_web (TotalsPage None) None)
       (2 + 4 * REFRESH_INTERVAL + 2) (mkSys Top initial)
     = Some ([LObserve; LObserve] ++ countdown_labels REFRESH_INTERVAL ++ [LExpire; LStart],
             mkSys Cycle (set_next_refresh_in (Some 0) initial)).
Proof.
  split; [reflexivity|]. split; [reflexivity|].
  exact (proj1 (undisturbed_countdown_runs_full_interval (lib := Demo.lib)
                  (mkEnv Demo.no_web (TotalsPage None) None) initial eq_refl eq_refl)).
Defined.

Lemma trigger_waits_for_resume_witness :
  let s := mkSys Top (set_refresh (lib := Demo.lib) "now"
                        (set_refresh (lib := Demo.lib) "pause" initial)) in
  exists s',
    exec (lib := Demo.lib) s [LObserve; LObserve; LSleep] s'
    /\ refresh_paused (shared s) = true
    /\ pause_side (pc s) = true
    /\ refresh_now (shared s) = true
    /\ count_label is_start [LObserve; LObserve; LSleep] = 0
    /\ refresh_now (shared s') = true.
Proof.
  intros s.
  destruct (sched_run (lib := Demo.lib) (mkEnv Demo.no_web (TotalsPage None) None) 3 s)
    as [[ls s']|] eqn:E; [|vm_compute in E; discriminate].
  pose proof (sched_run_exec (lib := Demo.lib) _ _ _ _ _ E) as Hex.
  assert (Hls : ls = [LObserve; LObserve; LSleep]) by (vm_compute in E; congruence).
  subst ls. exists s'.
  assert (H1 : refresh_paused (shared s) = true) by (vm_compute; reflexivity).
  assert (H2 : pause_side (pc s) = true) by reflexivity.
  assert (H3 : refresh_now (shared s) = true) by (vm_compute; reflexivity).
  assert (H4 : count_label is_unpause [LObserve; LObserve; LSleep] = 0) by reflexivity.
  destruct (trigger_waits_for_resume (lib := Demo.lib)
              (mkEnv Demo.no_web (TotalsPage None) None) s _ s' Hex H1 H2 H3 H4)
    as (R1 & _ & _ & R4 & _).
  auto 10.
Defined.

(** ** The event stream *)

Section StreamFacts.
Context {json : JsonLib}.

Lemma stream_read_pending : forall (ps : list Payload) (st : Shared) (h : nat) (m : Z),
  event_subscribers st !! h = Some (mkQueue m ps) ->
  stream_read (length ps) h st
  = (map event_frame ps,
     set_event_subscribers (<[h := mkQueue m []]> (event_subscribers st)) st).
Proof.
  induction ps as [|p ps IH]; intros st h m Hq; cbn [length stream_read map].
  - rewrite insert_id by exact Hq. now rewrite set_event_subscribers_same.
  - unfold stream_next. rewrite Hq. cbn [Queue_get pending maxsize].
    rewrite (IH _ h m).
    + cbn [event_subscribers set_event_subscribers]. rewrite insert_insert_eq. reflexivity.
    + cbn [event_subscribers set_event_subscribers]. apply lookup_insert_eq.
Qed.

(** X16. A stream opens by registering a subscriber of its own and
    sending the status, then the log buffer if it holds anything; closing
    it removes that subscriber and leaves the registry as it was before the
    stream opened, so that events published afterwards are not queued for
    it. *)
Theorem stream_opens_with_state_and_closes_clean (st : Shared)
    (evs : list (string * EventData)) :
  snd (fst (stream_open st))
  = frame "status" (dumps_status (get_status_snapshot st))
    :: match log_entries st with
       | [] => []
       | _ :: _ => [frame "logs" (dumps_logs (log_entries st))]
       end
  /\ event_subscribers st !! fst (fst (stream_open st)) = None
  /\ event_subscribers (snd (stream_open st)) !! fst (fst (stream_open st)) = Some Queue_new
  /\ stream_close (fst (fst (stream_open st))) (snd (stream_open st)) = st
  /\ event_subscribers
       (publish_all evs (stream_close (fst (fst (stream_open st))) (snd (stream_open st))))
       !! fst (fst (stream_open st)) = None.
Proof.
  assert (Hclose : stream_close (fst (fst (stream_open st))) (snd (stream_open st)) = st).
  { unfold stream_close, stream_open, unsubscribe_events, subscribe_events.
    cbn [fst snd event_subscribers set_event_subscribers].
    rewrite delete_insert_id by (apply not_elem_of_dom, is_fresh).
    destruct st; reflexivity. }
  assert (Hfresh : event_subscribers st !! fst (fst (stream_open st)) = None)
    by (cbn [stream_open subscribe_events fst snd]; apply not_elem_of_dom, is_fresh).
  split; [reflexivity|]. split; [exact Hfresh|]. split.
  - cbn [stream_open subscribe_events fst snd event_subscribers set_event_subscribers].
    apply lookup_insert_eq.
  - split; [exact Hclose|]. rewrite Hclose, publish_all_lookup, Hfresh. reflexivity.
Qed.

(** X17. The events published while a stream is open come out of it as
    frames in the order of publication, each with its type and its data,
    none missing; when the stream has caught up, the next turn waits the
    keep-alive time and yields a ping, and changes nothing. *)
Theorem stream_relays_in_order (st : Shared) (evs : list (string * EventData)) :
  all_unbounded st ->
  fst (stream_read (length evs) (fst (fst (stream_open st)))
         (publish_all evs (snd (stream_open st))))
  = map event_frame (map payload_of evs)
  /\ stream_next (fst (fst (stream_open st)))
       (snd (stream_read (length evs) (fst (fst (stream_open st)))
               (publish_all evs (snd (stream_open st)))))
     = (ping_frame,
        snd (stream_read (length evs) (fst (fst (stream_open st)))
               (publish_all evs (snd (stream_open st))))).
Proof.
  intros Hinv.
  set (h := fst (fst (stream_open st))). set (st1 := snd (stream_open st)).
  assert (Hq : event_subscribers (publish_all evs st1) !! h
               = Some (mkQueue 0 (map payload_of evs))).
  { apply (late_subscriber_queue st [] evs Hinv). }
  pose proof (stream_read_pending (map payload_of evs) _ h 0%Z Hq) as Hr.
  rewrite length_map in Hr. rewrite Hr. cbn [fst snd]. split; [reflexivity|].
  unfold stream_next. cbn [event_subscribers set_event_subscribers].
  rewrite lookup_insert_eq. reflexivity.
Qed.

End StreamFacts.

Lemma stream_relays_in_order_witness :
  all_unbounded initial
  /\ fst (stream_read (H := demo_json) 2 (fst (fst (stream_open (H := demo_json) initial)))
            (publish_all [("log", DataLog (mkLogEntry "t" "a")); ("log", DataLog (mkLogEntry "t" "b"))]
               (snd (stream_open (H := demo_json) initial))))
     = map (event_frame (H := demo_json))
           (map payload_of [("log", DataLog (mkLogEntry "t" "a"));
                            ("log", DataLog (mkLogEntry "t" "b"))]).
Proof.
  split; [exact initial_all_unbounded|].
  exact (proj1 (stream_relays_in_order (json := demo_json) initial
                  [("log", DataLog (mkLogEntry "t" "a")); ("log", DataLog (mkLogEntry "t" "b"))]
                  initial_all_unbounded)).
Defined.

(** ** FilterEngine: order, repetition and longer filter lists *)

Section FilterMore.
Variable lower : string -> string.

Lemma kept_sublist active R : sublist (List.filter (is_kept lower active) R) R.
Proof.
  induction R as [|r R IH]; cbn [List.filter]; [constructor|].
  destruct (is_kept lower active r); [now apply sublist_skip | now apply sublist_cons].
Qed.

Lemma rejected_sublist active R :
  sublist (map fst (omap (rejection lower active) R)) R.
Proof.
  induction R as [|r R IH]; cbn [omap list_omap map]; [constructor|].
  unfold rejection at 1. destruct (verdict lower active r);
    cbn [map fst]; [now apply sublist_skip | now apply sublist_cons].
Qed.

Lemma first_match_app a b text m :
  first_match a text = Some m -> first_match (a ++ b) text = Some m.
Proof.
  induction a as [|[o t] a IH]; cbn [first_match app]; [discriminate|].
  destruct (Str.contains t text); [exact id | exact IH].
Qed.

Lemma active_filters_app F G :
  active_filters lower (F ++ G) = active_filters lower F ++ active_filters lower G.
Proof. unfold active_filters. now rewrite List.filter_app, map_app. Qed.

Lemma active_filters_truthy F :
  active_filters lower (List.filter Str.truthy F) = active_filters lower F.
Proof.
  unfold active_filters. f_equal.
  induction F as [|f F IH]; cbn [List.filter]; [reflexivity|].
  destruct (Str.truthy f) eqn:E; cbn [List.filter]; [now rewrite E, IH | exact IH].
Qed.

(** X18. [apply_filters_to_items] keeps the records, on either side, in
    the order of the input; filtering what was kept again keeps all of it
    and rejects nothing; empty terms in the filter list change nothing; and
    with more terms at the end of the list every record rejected before is
    still rejected, with the same term reported, so that nothing kept by
    the longer list was rejected by the shorter one. *)
Theorem filter_engine_is_stable (F G : list string) (R : list Item) :
  sublist (fst (apply_filters_to_items lower F R)) R
  /\ sublist (map fst (snd (apply_filters_to_items lower F R))) R
  /\ apply_filters_to_items lower F (fst (apply_filters_to_items lower F R))
     = (fst (apply_filters_to_items lower F R), [])
  /\ apply_filters_to_items lower (List.filter Str.truthy F) R
     = apply_filters_to_items lower F R
  /\ (forall r t, In (r, t) (snd (apply_filters_to_items lower F R)) ->
      In (r, t) (snd (apply_filters_to_items lower (F ++ G) R)))
  /\ (forall r, In r (fst (apply_filters_to_items lower (F ++ G) R)) ->
      In r (fst (apply_filters_to_items lower F R))).
Proof.
  rewrite !apply_filters_eq. cbn [fst snd].
  assert (Hmono : forall r m, verdict lower (active_filters lower F) r = Some m ->
            verdict lower (active_filters lower (F ++ G)) r = Some m).
  { intros r m. rewrite !verdict_first_match, active_filters_app. apply first_match_app. }
  split; [apply kept_sublist|]. split; [apply rejected_sublist|]. split.
  - f_equal.
    + induction R as [|r R IH]; cbn [List.filter]; [reflexivity|].
      destruct (is_kept lower (active_filters lower F) r) eqn:E; [|exact IH].
      cbn [List.filter]. now rewrite E, IH.
    + induction R as [|r R IH]; cbn [List.filter]; [reflexivity|].
      destruct (is_kept lower (active_filters lower F) r) eqn:E; [|exact IH].
      cbn [omap list_omap]. unfold rejection at 1. unfold is_kept in E.
      destruct (verdict lower (active_filters lower F) r); [discriminate | exact IH].
  - split; [now rewrite active_filters_truthy|]. split.
    + intros r t Hin. apply in_rejected in Hin as [Hr Hv]. apply in_rejected. auto.
    + intros r Hin. apply in_kept in Hin as [Hr Hv]. apply in_kept. split; [exact Hr|].
      destruct (verdict lower (active_filters lower F) r) as [m|] eqn:E; [|reflexivity].
      apply Hmono in E. congruence.
Qed.

End FilterMore.

Section PauseLatency.
Context {lib : PyLib}.

(** X19. A pause is seen at the scheduler's next look at the flag, and
    that look comes before the look at the trigger: with the flag set, the
    scheduler at the top of its loop or at the pause check of a tick goes
    to PAUSED whether a trigger is pending or not; and in a tick that is
    not the last one it goes there from the status write or from the sleep
    after a single sleep, and from the trigger check too when no trigger is
    pending, without starting a cycle. *)
Theorem pause_seen_at_next_check (env : CycleEnv) (st : Shared) (i : nat) :
  refresh_paused st = true ->
  2 <= i ->
  sched_run env 1 (mkSys Top st) = Some ([LObserve], mkSys PausedStatus st)
  /\ sched_run env 1 (mkSys (CdPause i) st) = Some ([LObserve], mkSys CdPausedStatus st)
  /\ sched_run env 2 (mkSys (CdSleep i) st)
     = Some ([LSleep; LObserve], mkSys CdPausedStatus st)
  /\ sched_run env 3 (mkSys (CdStatus i) st)
     = Some ([LObserve; LSleep; LObserve],
             mkSys CdPausedStatus (set_next_refresh_in (Some i) st))
  /\ (refresh_now st = false ->
      sched_run env 4 (mkSys (CdNow i) st)
      = Some ([LObserve; LObserve; LSleep; LObserve],
              mkSys CdPausedStatus (set_next_refresh_in (Some i) st)))
  /\ observed CdPausedStatus = PAUSED /\ observed PausedStatus = PAUSED.
Proof.
  intros Hp Hi. destruct i as [|[|i]]; try lia.
  repeat split.
  - cbn [sched_run sched_step pc shared]. now rewrite Hp.
  - cbn [sched_run sched_step pc shared]. now rewrite Hp.
  - cbn [sched_run sched_step pc shared Nat.sub countdown_from]. now rewrite Hp.
  - cbn [sched_run sched_step pc shared Nat.sub countdown_from refresh_paused
         set_next_refresh_in set_status]. now rewrite Hp.
  - intros Hn. cbn [sched_run sched_step pc shared]. rewrite Hn.
    cbn [sched_run sched_step pc shared Nat.sub countdown_from refresh_paused
         set_next_refresh_in set_status]. now rewrite Hp.
Qed.

End PauseLatency.

Lemma pause_seen_at_next_check_witness :
  refresh_paused (set_refresh (lib := Demo.lib) "pause" initial) = true
  /\ 2 <= 7
  /\ sched_run (lib := Demo.lib) (mkEnv Demo.no_web (TotalsPage None) None) 2
       (mkSys (CdSleep 7) (set_refresh (lib := Demo.lib) "pause" initial))
     = Some ([LSleep; LObserve],
             mkSys CdPausedStatus (set_refresh (lib := Demo.lib) "pause" initial)).
Proof.
  assert (H1 : refresh_paused (set_refresh (lib := Demo.lib) "pause" initial) = true)
    by (vm_compute; reflexivity).
  assert (H2 : 2 <= 7) by lia.
  split; [exact H1|]. split; [exact H2|].
  exact (proj1 (proj2 (proj2 (pause_seen_at_next_check (lib := Demo.lib)
    (mkEnv Demo.no_web (TotalsPage None) None) _ 7 H1 H2)))).
Defined.

(** ** EventBus under the whole system *)

Lemma channels_extend_refl st : channels_extend st st.
Proof.
  split; [reflexivity|]. intros h q Hq Hm. exists []. rewrite Hq, app_nil_r.
  destruct q; cbn in *; now subst.
Qed.

Lemma channels_extend_publish st0 ty data st :
  channels_extend st0 st -> channels_extend st0 (publish_event ty data st).
Proof.
  intros [Hdom Hq]. split.
  - unfold publish_event. cbn [event_subscribers set_event_subscribers].
    now rewrite dom_fmap_L.
  - intros h q Hh Hm. destruct (Hq h q Hh Hm) as [more Hmore].
    exists (more ++ [mkPayload ty data]).
    rewrite publish_event_lookup, Hmore. cbn [fmap option_fmap option_map].
    rewrite deliver_unbounded by reflexivity. cbn [pending]. now rewrite <- app_assoc.
Qed.

Lemma channels_extend_same st0 st st' :
  event_subscribers st' = event_subscribers st ->
  channels_extend st0 st -> channels_extend st0 st'.
Proof. intros He [Hdom Hq]. split; rewrite He; assumption. Qed.

Section ChannelFacts.
Context {lib : PyLib}.

Lemma channels_extend_add_log st0 m st :
  channels_extend st0 st -> channels_extend st0 (add_log m st).
Proof.
  intros H. unfold add_log. apply channels_extend_publish.
  eapply channels_extend_same; [|exact H]. reflexivity.
Qed.

Lemma channels_extend_add_logs st0 msgs : forall st,
  channels_extend st0 st -> channels_extend st0 (add_logs msgs st).
Proof.
  unfold add_logs. induction msgs as [|m ms IH]; intros st H; cbn [foldl]; [exact H|].
  apply IH, channels_extend_add_log, H.
Qed.

Lemma channels_extend_update_status st0 kw st :
  channels_extend st0 st -> channels_extend st0 (snd (update_status kw st)).
Proof.
  intros H. unfold update_status. cbn [snd]. apply channels_extend_publish.
  destruct (kw_empty kw); [exact H|]. eapply channels_extend_same; [|exact H]. reflexivity.
Qed.

Lemma channels_extend_clock st0 n st :
  channels_extend st0 st -> channels_extend st0 (set_clock_reads n st).
Proof. apply channels_extend_same. reflexivity. Qed.

Lemma channels_extend_atom st0 a st :
  channels_extend st0 st -> channels_extend st0 (run_atom a st).
Proof.
  destruct a; cbn [run_atom];
    try (apply channels_extend_same; reflexivity).
  - apply channels_extend_update_status.
  - apply channels_extend_add_log.
Qed.

Lemma channels_extend_cycle st0 env st :
  channels_extend st0 st ->
  match run_cycle env st with
  | Completed st' _ | Raised _ st' => channels_extend st0 st'
  | Unfinished => True
  end.
Proof.
  intros H0. unfold run_cycle. cbn [read_clock].
  destruct (fetch_auction_items _ _ _) as [[w|e w]|]; [| |exact I].
  2: { apply channels_extend_add_logs, channels_extend_clock, channels_extend_add_log, H0. }
  destruct (apply_filters_to_items _ _ _) as [kept out].
  destruct out as [|o out];
    (match goal with
     | |- context [get_total_raised ?r ?x] =>
         assert (H4 : channels_extend st0 (snd (get_total_raised r x)))
           by (destruct r; cbn [get_total_raised snd];
               repeat first [ exact H0
                            | apply channels_extend_add_log
                            | apply channels_extend_add_logs
                            | apply channels_extend_clock ]);
         destruct (get_total_raised r x) as [tot st4]
     end;
     cbn [snd] in H4;
     destruct (env_write_error env); cbn [read_clock]; [exact H4|];
     match goal with
     | |- context [update_status ?k ?x] =>
         pose proof (channels_extend_update_status st0 k x) as Hu;
         destruct (update_status k x) as [snap st5]
     end;
     cbn [snd] in Hu; apply Hu;
     repeat first [ exact H4
                  | apply channels_extend_add_log
                  | apply channels_extend_clock ]).
Qed.

Lemma channels_extend_step s l s' st0 :
  step s l s' -> channels_extend st0 (shared s) -> channels_extend st0 (shared s').
Proof.
  intros Hstep H0. destruct Hstep as [env s l s1 Hs | a s].
  - destruct s as [p st]. unfold sched_step in Hs. cbn [pc shared] in *.
    destruct p; try (inversion Hs; subst; cbn [shared];
                     first [exact H0 | eapply channels_extend_same; [|exact H0]; reflexivity]);
      try (destruct (refresh_now st); inversion Hs; subst; cbn [shared];
           first [exact H0 | eapply channels_extend_same; [|exact H0]; reflexivity]).
    pose proof (channels_extend_cycle st0 env st H0) as Hc.
    destruct (run_cycle env st); inversion Hs; subst; exact Hc.
  - cbn [shared]. apply channels_extend_atom, H0.
Qed.

(** X20. Whatever the scheduler and the handlers do, cycles included, no
    subscriber is registered or removed by it, and a subscriber's channel
    only grows at its end: what was pending stays pending, in its order,
    ahead of what is published later. *)
Theorem system_only_appends_to_channels (s : Sys) (ls : list Label) (s' : Sys) :
  exec s ls s' ->
  dom (event_subscribers (shared s')) = dom (event_subscribers (shared s))
  /\ forall h q, event_subscribers (shared s) !! h = Some q -> maxsize q = 0%Z ->
       exists more,
         event_subscribers (shared s') !! h = Some (mkQueue 0 (pending q ++ more)).
Proof.
  intros Hex. change (channels_extend (shared s) (shared s')).
  generalize (channels_extend_refl (shared s)). generalize (shared s) at 1 3 as st0.
  induction Hex as [s | s l s1 ls s2 Hstep _ IH]; intros st0 H0; [exact H0|].
  apply IH. eapply channels_extend_step; [exact Hstep | exact H0].
Qed.

End ChannelFacts.

Lemma system_only_appends_to_channels_witness :
  let s := mkSys Top (snd (subscribe_events initial)) in
  exists s',
    exec (lib := Demo.lib) s [LObserve; LObserve] s'
    /\ dom (event_subscribers (shared s')) = dom (event_subscribers (shared s)).
Proof.
  intros s.
  destruct (sched_run (lib := Demo.lib) (mkEnv Demo.no_web (TotalsPage None) None) 2 s)
    as [[ls s']|] eqn:E; [|vm_compute in E; discriminate].
  pose proof (sched_run_exec (lib := Demo.lib) _ _ _ _ _ E) as Hex.
  assert (Hls : ls = [LObserve; LObserve]) by (vm_compute in E; congruence).
  subst ls. exists s'. split; [exact Hex|].
  exact (proj1 (system_only_appends_to_channels (lib := Demo.lib) s _ s' Hex)).
Defined.
